(** * llmify: concatenating a directory tree into one document

    A shallow embedding of [.openhands/microagents/llmify.py] and the
    verification of its specification.

    Modelling conventions.
    - A Python [str] is a list of Unicode code points ([N]); a [bytes]
      object is a list of [byte].  Comparison of [str] and of path
      components is Python's: lexicographic, by code point.
    - A [Path] is the list of its parts, as [Path.parts] gives them.
      Comparison of paths is [PurePath.__lt__]: the lists of parts are
      compared, part by part.  The platform is POSIX (case is kept, the
      separator is [/], and text files are written with [\n] unchanged).
      The library is that of Python 3.11.
    - The directory tree under [base_dir] is an inductive [node]; each
      directory carries its listing in the order [os.scandir] returns
      it, which is arbitrary.  A directory that cannot be listed and
      a file that cannot be opened are part of the model, since the
      program swallows both errors.  So is an entry whose [stat]
      raises, such as a file in a directory that can be listed but not
      searched: [Path.is_dir] lets that error through, and the program
      calls it outside any [try].
    - A statement that changes a state and can raise is a function
      from the state to the state it leaves and its value or its
      exception.
    - [open(..., 'r', encoding='utf-8', errors='replace')] followed by
      [read()] is the UTF-8 decoder with the [replace] error handler,
      followed by universal-newline translation.
    - The walk and the probes of the first loop see one tree; the
      reads of the second loop see the file system through a [reader],
      which is that same tree when nothing changes in between, and
      anything else when files vanish or change.
    - The output file is opened with [encoding='utf-8'] and the strict
      error handler: [write] raises [UnicodeEncodeError] on a text
      that holds a surrogate, which is how [os.walk] gives the bytes
      of a file name that are not UTF-8; such a call writes nothing.
      Writes do not fail otherwise.  The two standard streams take
      every line they are given: standard error escapes what it
      cannot encode, and standard output is taken to do the same. *)

From Stdlib Require Import List Bool NArith Lia String Ascii.
From Stdlib Require Import Strings.Byte DecimalString HexadecimalString.
From Stdlib Require Import Sorted Permutation.
Import ListNotations.
Local Open Scope list_scope.
Local Open Scope N_scope.

(** ** Text and bytes *)

Definition char := N.
Definition str := list char.
Definition bytes := list byte.

(** An ASCII literal of the source, as a [str]. *)
Definition lit (s : string) : str := map N_of_ascii (list_ascii_of_string s).
Arguments lit s%_string.

(** Python's sequence comparison: the first position where the two
    sequences differ decides; a proper prefix is smaller. *)
Fixpoint lex_compare {A : Type} (cmp : A -> A -> comparison) (x y : list A)
  : comparison :=
  match x, y with
  | [], [] => Eq
  | [], _ :: _ => Lt
  | _ :: _, [] => Gt
  | a :: x', b :: y' =>
      match cmp a b with
      | Eq => lex_compare cmp x' y'
      | c => c
      end
  end.

Definition str_compare : str -> str -> comparison := lex_compare N.compare.

Definition str_eqb (a b : str) : bool :=
  match str_compare a b with Eq => true | _ => false end.

Definition str_ltb (a b : str) : bool :=
  match str_compare a b with Lt => true | _ => false end.

(** [s.startswith(prefix)] and [s.endswith(suffix)]. *)
Fixpoint startswith (s prefix : str) : bool :=
  match prefix, s with
  | [], _ => true
  | _ :: _, [] => false
  | p :: prefix', c :: s' => (c =? p) && startswith s' prefix'
  end.

Definition endswith (s suffix : str) : bool :=
  startswith (rev s) (rev suffix).

(** [sep.join(parts)]. *)
Fixpoint join (sep : str) (parts : list str) : str :=
  match parts with
  | [] => []
  | [p] => p
  | p :: rest => p ++ sep ++ join sep rest
  end.

(** ** Paths *)

Definition Path := list str.

Definition path_compare : Path -> Path -> comparison := lex_compare str_compare.

(** [a < b] on paths. *)
Definition path_ltb (a b : Path) : bool :=
  match path_compare a b with Lt => true | _ => false end.

(** [Path(root) / file], for a [file] that is a single name. *)
Definition path_join (root : Path) (file : str) : Path := root ++ [file].

(** [str(path)]. *)
Definition path_str (p : Path) : str :=
  match p with
  | [] => lit "."
  | anchor :: rest =>
      if str_eqb anchor (lit "/") then anchor ++ join (lit "/") rest
      else join (lit "/") p
  end.

(** Results of operations that can raise; [Raise] carries [str(e)]. *)
Inductive io_result (A : Type) : Type :=
| Ok (a : A)
| Raise (msg : str).
Arguments Ok {A} a.
Arguments Raise {A} msg.

Fixpoint strip_prefix (p base : Path) : option Path :=
  match base, p with
  | [], _ => Some p
  | _ :: _, [] => None
  | b :: base', c :: p' => if str_eqb b c then strip_prefix p' base' else None
  end.

(** [path.relative_to(base)]: raises [ValueError] when [base] is not a
    prefix of [path]. *)
Definition relative_to (p base : Path) : io_result Path :=
  match strip_prefix p base with
  | Some rel => Ok rel
  | None =>
      Raise (lit "'" ++ path_str p ++ lit "' is not in the subpath of '"
             ++ path_str base
             ++ lit "' OR one path is relative and the other is absolute.")
  end.

(** ** Statements

    A statement acts on a state [S] and ends with a value or with an
    exception; the state it leaves is there in both cases. *)
Definition M (S A : Type) : Type := S -> S * io_result A.

Definition ret {S A : Type} (a : A) : M S A := fun s => (s, Ok a).

Definition bind {S A B : Type} (m : M S A) (k : A -> M S B) : M S B :=
  fun s =>
    match m s with
    | (s', Ok a) => k a s'
    | (s', Raise e) => (s', Raise e)
    end.

Notation "x <- m ;; k" := (bind m (fun x => k))
  (at level 61, m at next level, right associativity).
Notation "m ;; k" := (bind m (fun _ => k))
  (at level 61, right associativity).

(** An operation that does not touch the state. *)
Definition lift {S A : Type} (r : io_result A) : M S A := fun s => (s, r).

(** [try: body except Exception as e: handler(e)]. *)
Definition try_except {S A : Type} (body : M S A) (handler : str -> M S A)
  : M S A :=
  fun s =>
    match body s with
    | (s', Ok a) => (s', Ok a)
    | (s', Raise e) => handler e s'
    end.

(** [for x in xs: body(x)]; an exception of the body ends the loop. *)
Fixpoint for_each {S A : Type} (body : A -> M S unit) (xs : list A) : M S unit :=
  match xs with
  | [] => ret tt
  | x :: xs' => body x ;; for_each body xs'
  end.

(** ** The list sort

    [list.sort()] is a stable sort that only uses [<]; so is this
    insertion sort, and a stable sort has one possible result. *)
Fixpoint insert (a : Path) (l : list Path) : list Path :=
  match l with
  | [] => [a]
  | b :: l' => if path_ltb b a then b :: insert a l' else a :: b :: l'
  end.

Fixpoint sort (l : list Path) : list Path :=
  match l with
  | [] => []
  | a :: l' => insert a (sort l')
  end.

(** ** The directory tree *)

#[warnings="-register-all"]
Inductive node : Type :=
| File (content : io_result bytes)
    (* not a directory; [Raise]: opening or reading it fails *)
| Dir (listing : option (list (str * node)))
    (* [None]: [os.scandir] fails on it, or it is a link that
       [os.walk] does not follow *)
| Denied (msg : str).
    (* an entry that the walk lists among the files and on which
       [stat] and [open] raise [OSError], with an [errno] that
       [Path.is_dir] does not ignore: a file in a directory that can
       be listed but not searched *)

Definition node_is_dir (n : node) : bool :=
  match n with Dir _ => true | _ => false end.

(** Path resolution below a node. *)
Fixpoint lookup (n : node) (rel : Path) {struct n} : option node :=
  match rel with
  | [] => Some n
  | name :: rel' =>
      match n with
      | Dir (Some entries) =>
          (fix find (es : list (str * node)) : option node :=
             match es with
             | [] => None
             | (name', child) :: es' =>
                 if str_eqb name' name then lookup child rel' else find es'
             end) entries
      | _ => None
      end
  end.

(** What a path denotes, when the tree [fs] sits at [base_dir]
    ([fs = None]: there is nothing at [base_dir]). *)
Definition resolve (fs : option node) (base_dir p : Path) : option node :=
  match fs, strip_prefix p base_dir with
  | Some n, Some rel => lookup n rel
  | _, _ => None
  end.

(** [path.is_dir()]: [stat] decides; when it raises [OSError] the
    answer is [False] if the path does not exist ([ENOENT], [ENOTDIR],
    [EBADF], [ELOOP]), and the exception is raised again if not. *)
Definition is_dir (fs : option node) (base_dir p : Path) : io_result bool :=
  match resolve fs base_dir p with
  | Some (Dir _) => Ok true
  | Some (File _) => Ok false
  | Some (Denied msg) => Raise msg
  | None => Ok false
  end.

(** [open(path, 'rb')] followed by reading the file. *)
Definition open_rb (fs : option node) (base_dir p : Path) : io_result bytes :=
  match resolve fs base_dir p with
  | Some (File content) => content
  | Some (Dir _) =>
      Raise (lit "[Errno 21] Is a directory: '" ++ path_str p ++ lit "'")
  | Some (Denied msg) => Raise msg
  | None =>
      Raise (lit "[Errno 2] No such file or directory: '" ++ path_str p
             ++ lit "'")
  end.

(** [os.walk(top)], top-down, with its defaults: errors of the listing
    are ignored ([onerror=None]) and links are not followed.  Each
    triple is [(root, dirs, files)]. *)
Fixpoint os_walk (top : Path) (n : node) : list (Path * list str * list str) :=
  match n with
  | Dir (Some entries) =>
      (top,
       map fst (filter (fun e => node_is_dir (snd e)) entries),
       map fst (filter (fun e => negb (node_is_dir (snd e))) entries))
      :: flat_map (fun e =>
                     if node_is_dir (snd e)
                     then os_walk (path_join top (fst e)) (snd e)
                     else []) entries
  | _ => []
  end.

Definition walk (fs : option node) (base_dir : Path)
  : list (Path * list str * list str) :=
  match fs with
  | Some n => os_walk base_dir n
  | None => []
  end.

(** ** Reading text: UTF-8 with [errors='replace'], universal newlines *)

(** U+FFFD, what the [replace] handler puts for each decoding error. *)
Definition REPLACEMENT : char := 0xFFFD.

Definition is_continuation (b : byte) : bool :=
  (0x80 <=? Byte.to_N b) && (Byte.to_N b <? 0xC0).

(** The decoder, one character or one error at a time.  An error is an
    invalid start byte (one byte), an invalid continuation (the bytes
    before the offending one) or an unexpected end of data (all that
    is left); the handler replaces its whole span by one U+FFFD and
    decoding goes on behind it. *)
Fixpoint utf8_decode (s : bytes) : str :=
  match s with
  | [] => []
  | b1 :: s1 =>
    let ch := Byte.to_N b1 in
    if ch <? 0x80 then ch :: utf8_decode s1
    else if ch <? 0xC2 then REPLACEMENT :: utf8_decode s1
    else if ch <? 0xE0 then
      match s1 with
      | [] => [REPLACEMENT]
      | b2 :: s2 =>
        if is_continuation b2
        then ((ch - 0xC0) * 64 + (Byte.to_N b2 - 0x80)) :: utf8_decode s2
        else REPLACEMENT :: utf8_decode s1
      end
    else if ch <? 0xF0 then
      match s1 with
      | [] => [REPLACEMENT]
      | b2 :: s2 =>
        let ch2 := Byte.to_N b2 in
        if negb (is_continuation b2)
           || (if ch2 <? 0xA0 then ch =? 0xE0 else ch =? 0xED)
        then REPLACEMENT :: utf8_decode s1
        else
          match s2 with
          | [] => [REPLACEMENT]
          | b3 :: s3 =>
            if is_continuation b3
            then ((ch - 0xE0) * 4096 + (ch2 - 0x80) * 64
                  + (Byte.to_N b3 - 0x80)) :: utf8_decode s3
            else REPLACEMENT :: utf8_decode s2
          end
      end
    else if ch <? 0xF5 then
      match s1 with
      | [] => [REPLACEMENT]
      | b2 :: s2 =>
        let ch2 := Byte.to_N b2 in
        if negb (is_continuation b2)
           || (if ch2 <? 0x90 then ch =? 0xF0 else ch =? 0xF4)
        then REPLACEMENT :: utf8_decode s1
        else
          match s2 with
          | [] => [REPLACEMENT]
          | b3 :: s3 =>
            if is_continuation b3
            then
              match s3 with
              | [] => [REPLACEMENT]
              | b4 :: s4 =>
                if is_continuation b4
                then ((ch - 0xF0) * 262144 + (ch2 - 0x80) * 4096
                      + (Byte.to_N b3 - 0x80) * 64
                      + (Byte.to_N b4 - 0x80)) :: utf8_decode s4
                else REPLACEMENT :: utf8_decode s3
              end
            else REPLACEMENT :: utf8_decode s2
          end
      end
    else REPLACEMENT :: utf8_decode s1
  end.

(** [newline=None] on reading: [\r\n] and a lone [\r] become [\n]. *)
Fixpoint universal_newlines (s : str) : str :=
  match s with
  | [] => []
  | c :: rest =>
      if c =? 13 then
        10 :: match rest with
              | [] => []
              | c' :: rest' =>
                  if c' =? 10 then universal_newlines rest'
                  else universal_newlines rest
              end
      else c :: universal_newlines rest
  end.

(** What [f.read()] returns for a file of these bytes, opened with
    [open(file_path, 'r', encoding='utf-8', errors='replace')]. *)
Definition read_text (data : bytes) : str :=
  universal_newlines (utf8_decode data).

(** ** Writing text: the strict UTF-8 encoder of the output file *)

Definition byte_of_N (n : N) : byte :=
  match Byte.of_N n with
  | Some b => b
  | None => x00
  end.

(** The code points a [str] can be encoded from: up to U+10FFFF and no
    surrogate. *)
Definition is_scalar (c : char) : bool :=
  (c <? 0xD800) || ((0xE000 <=? c) && (c <? 0x110000)).

Definition utf8_encode_char (c : char) : option bytes :=
  if c <? 0x80 then Some [byte_of_N c]
  else if c <? 0x800 then
    Some [byte_of_N (0xC0 + c / 64); byte_of_N (0x80 + c mod 64)]
  else if negb (is_scalar c) then None
  else if c <? 0x10000 then
    Some [byte_of_N (0xE0 + c / 4096); byte_of_N (0x80 + (c / 64) mod 64);
          byte_of_N (0x80 + c mod 64)]
  else
    Some [byte_of_N (0xF0 + c / 262144); byte_of_N (0x80 + (c / 4096) mod 64);
          byte_of_N (0x80 + (c / 64) mod 64); byte_of_N (0x80 + c mod 64)].

(** [text.encode('utf-8')]; [None] stands for [UnicodeEncodeError]. *)
Fixpoint utf8_encode (s : str) : option bytes :=
  match s with
  | [] => Some []
  | c :: s' =>
      match utf8_encode_char c, utf8_encode s' with
      | Some b, Some bs => Some (b ++ bs)
      | _, _ => None
      end
  end.

(** Whether [text.encode('utf-8')] succeeds. *)
Definition encodable (s : str) : bool :=
  match utf8_encode s with
  | Some _ => true
  | None => false
  end.

(** A number as [%d] prints it, and as [%0<width>x] does. *)
Definition decimal (n : N) : str :=
  lit (DecimalString.NilZero.string_of_uint (N.to_uint n)).

Definition hexadecimal (width : nat) (n : N) : str :=
  let digits :=
    lit (HexadecimalString.NilZero.string_of_uint (N.to_hex_uint n)) in
  repeat 48 (width - List.length digits) ++ digits.

(** The character of the message, as [\xNN], [\uNNNN] or [\UNNNNNNNN]. *)
Definition escaped (c : char) : str :=
  if c <? 0x100 then lit "\x" ++ hexadecimal 2 c
  else if c <? 0x10000 then lit "\u" ++ hexadecimal 4 c
  else lit "\U" ++ hexadecimal 8 c.

(** The number of characters at the start of [s] that cannot be encoded. *)
Fixpoint bad_run (s : str) : N :=
  match s with
  | [] => 0
  | c :: s' => if is_scalar c then 0 else 1 + bad_run s'
  end.

(** [str(e)] for the [UnicodeEncodeError] that encoding raises on a
    text whose part from position [pos] on is [s]: the error starts at
    the first character that cannot be encoded and covers those that
    follow it without a gap. *)
Fixpoint encode_error_from (pos : N) (s : str) : str :=
  match s with
  | [] => []
  | c :: s' =>
      if is_scalar c then encode_error_from (pos + 1) s'
      else if bad_run s' =? 0 then
        lit "'utf-8' codec can't encode character '" ++ escaped c
        ++ lit "' in position " ++ decimal pos
        ++ lit ": surrogates not allowed"
      else
        lit "'utf-8' codec can't encode characters in position "
        ++ decimal pos ++ lit "-" ++ decimal (pos + bad_run s')
        ++ lit ": surrogates not allowed"
  end.

Definition encode_error (s : str) : str := encode_error_from 0 s.

(** ** The program *)

(** What a run leaves behind: the arguments of the successive
    [output_file.write] calls, and the lines printed to the two
    streams. *)
Record world : Type := {
  output_file : list str;
  stdout : list str;
  stderr : list str
}.

(** The text the output file holds. *)
Definition document (w : world) : str := List.concat (output_file w).

(** What the three output operations leave. *)
Definition wrote (w : world) (s : str) : world :=
  {| output_file := output_file w ++ [s];
     stdout := stdout w;
     stderr := stderr w |}.

Definition printed (w : world) (line : str) : world :=
  {| output_file := output_file w;
     stdout := stdout w ++ [line];
     stderr := stderr w |}.

Definition reported (w : world) (line : str) : world :=
  {| output_file := output_file w;
     stdout := stdout w;
     stderr := stderr w ++ [line] |}.

(** [output_file.write(s)]: the text is encoded at once, and when that
    raises nothing of it is written. *)
Definition write (s : str) : M world unit :=
  fun w =>
    if encodable s then (wrote w s, Ok tt) else (w, Raise (encode_error s)).

(** [print(line)] and [print(line, file=sys.stderr)]. *)
Definition print (line : str) : M world unit :=
  fun w => (printed w line, Ok tt).

Definition print_stderr (line : str) : M world unit :=
  fun w => (reported w line, Ok tt).

Definition nl : str := [10].

(** [is_text_file(file_path)]: the probe of the first 1024 bytes; any
    exception gives [False]. *)
Definition is_text_file (fs : option node) (base_dir file_path : Path) : bool :=
  match open_rb fs base_dir file_path with
  | Ok data =>
      let chunk := firstn 1024 data in
      negb (existsb (Byte.eqb x00) chunk)
  | Raise _ => false
  end.

(** [all_files.append(file_path)]. *)
Definition append (file_path : Path) : M (list Path) unit :=
  fun all_files => (all_files ++ [file_path], Ok tt).

(** The first loop of [process_directory], a statement on the list
    [all_files].  [is_dir] is called outside any [try]: when it
    raises, the loop ends there. *)
Definition first_loop (fs : option node) (base_dir : Path)
  : M (list Path) unit :=
  for_each
    (fun '(root, _, files) =>
       for_each
         (fun file =>
            if startswith file (lit "llmify") || endswith file (lit ".md.llm")
            then ret tt
            else
              let file_path := path_join root file in
              d <- lift (is_dir fs base_dir file_path) ;;
              if d || negb (is_text_file fs base_dir file_path)
              then ret tt
              else append file_path)
         files)
    (walk fs base_dir).

(** [all_files] as the first loop leaves it: at its end, or where
    [is_dir] raised. *)
Definition all_files (fs : option node) (base_dir : Path) : list Path :=
  fst (first_loop fs base_dir []).

(** The separator and heading of a section: the f-string
    ["\n\n---\n\n# {rel_path}\n\n"]. *)
Definition heading (rel_path : Path) : str :=
  nl ++ nl ++ lit "---" ++ nl ++ nl ++ lit "# " ++ path_str rel_path
  ++ nl ++ nl.

Definition error_line (file_path : Path) (e : str) : str :=
  lit "Error processing " ++ path_str file_path ++ lit ": " ++ e.

(** The body of the second loop, for one [file_path].  [reader] is the
    file system at the time the content is read: what opening the
    file in text mode finds, the bytes or an [OSError]. *)
Definition process_file (reader : Path -> io_result bytes) (base_dir : Path)
    (file_path : Path) : M world unit :=
  try_except
    (rel_path <- lift (relative_to file_path base_dir) ;;
     write (heading rel_path) ;;
     data <- lift (reader file_path) ;;
     let content := read_text data in
     write content ;;
     print (lit "Processed: " ++ path_str rel_path))
    (fun e => print_stderr (error_line file_path e)).

(** [process_directory(base_dir, output_file)].  [fs] is the tree the
    walk and the probes see.  An exception of the first loop is the
    exception of the call, and nothing has been written then. *)
Definition process_directory (fs : option node)
    (reader : Path -> io_result bytes) (base_dir : Path) : M world unit :=
  fun w =>
    match first_loop fs base_dir [] with
    | (_, Raise e) => (w, Raise e)
    | (all_files, Ok _) =>
        for_each (process_file reader base_dir) (sort all_files) w
    end.

Definition banner : list str :=
  [lit "# OpenHands Microagents Documentation" ++ nl ++ nl;
   lit "This file contains the concatenated contents of all files in the .openhands/microagents directory."
   ++ nl].

(** [main()], for a script that sits in [script_dir].  [open_w] says
    whether opening the output path for writing raises.  The result
    is the world at the end and the exception that escaped, if any:
    that of [open], or one that [process_directory] let through. *)
Definition main (script_dir : Path) (fs : option node)
    (reader : Path -> io_result bytes) (open_w : Path -> option str)
  : world * option str :=
  let output_path := path_join script_dir (lit "microagents.md.llm") in
  let run : M world unit :=
    print (lit "Starting to process files in " ++ path_str script_dir) ;;
    print (lit "Output will be written to " ++ path_str output_path) ;;
    lift (match open_w output_path with
          | Some e => Raise e
          | None => Ok tt
          end) ;;
    for_each write banner ;;
    process_directory fs reader script_dir ;;
    print (lit "Done! Output written to " ++ path_str output_path) in
  match run {| output_file := []; stdout := []; stderr := [] |} with
  | (w, Ok _) => (w, None)
  | (w, Raise e) => (w, Some e)
  end.

(** ** Notions of the specification *)

(** No directory lists a name twice. *)
Fixpoint unique_names (n : node) : bool :=
  match n with
  | Dir (Some entries) =>
      (fix go (es : list (str * node)) : bool :=
         match es with
         | [] => true
         | (name, child) :: es' =>
             negb (existsb (fun e => str_eqb (fst e) name) es')
             && unique_names child && go es'
         end) entries
  | _ => true
  end.

Definition well_formed (fs : option node) : bool :=
  match fs with
  | Some n => unique_names n
  | None => true
  end.

(** Every name in the tree can be encoded as UTF-8. *)
Fixpoint names_encodable (n : node) : bool :=
  match n with
  | Dir (Some entries) =>
      forallb (fun e => encodable (fst e) && names_encodable (snd e)) entries
  | _ => true
  end.

Definition names_ok (fs : option node) : bool :=
  match fs with
  | Some n => names_encodable n
  | None => true
  end.

(** The first loop gets to its end: [is_dir] does not raise on any
    entry it is asked about. *)
Definition walk_completes (fs : option node) (base_dir : Path) : Prop :=
  snd (first_loop fs base_dir []) = Ok tt.

(** A directory that lists a file [name] holding [c]. *)
Definition with_file (es1 es2 : list (str * node)) (name : str)
    (c : io_result bytes) : node :=
  Dir (Some (es1 ++ (name, File c) :: es2)).

(** The two file name rules of the eligibility filter. *)
Definition name_allowed (file : str) : bool :=
  negb (startswith file (lit "llmify")) && negb (endswith file (lit ".md.llm")).

(** The probe window: no null byte among the first 1024 bytes. *)
Definition text_window (data : bytes) : bool :=
  negb (existsb (Byte.eqb x00) (firstn 1024 data)).

(** The eligibility filter as the specification words it, on a path
    relative to the root: the path leads to an entry that is not a
    directory, its name passes the two name rules and its probe finds
    text.  The result is the content of the eligible file. *)
Definition eligible (fs : option node) (rel : Path) : option bytes :=
  match fs, rev rel with
  | Some n, file :: _ =>
      match lookup n rel with
      | Some (File (Ok data)) =>
          if name_allowed file && text_window data then Some data else None
      | _ => None
      end
  | _, _ => None
  end.

(** The sections of a document, for the relative paths in [rels]: a
    heading each, followed by the body when [body] has one. *)
Definition sections (body : Path -> option str) (rels : list Path) : list str :=
  flat_map
    (fun rel =>
       heading rel :: match body rel with Some b => [b] | None => [] end)
    rels.

Definition path_lt (a b : Path) : Prop := path_ltb a b = true.

(** [a <= b] on paths, as the sort sees it: [b < a] does not hold. *)
Definition path_le (a b : Path) : Prop := path_ltb b a = false.

(** The order the specification names: code point order on the
    relative paths as text. *)
Definition text_lt (a b : Path) : Prop :=
  str_ltb (path_str a) (path_str b) = true.

(** The entries that are not directories, in the order in which the
    walk meets them: each with the path of its directory relative to
    the root of the walk, and its name. *)
Fixpoint rel_entries (n : node) : list (Path * str) :=
  match n with
  | Dir (Some entries) =>
      map (fun e => ([], fst e))
          (filter (fun e => negb (node_is_dir (snd e))) entries)
      ++ flat_map (fun e =>
                     if node_is_dir (snd e)
                     then map (fun df => (fst e :: fst df, snd df))
                              (rel_entries (snd e))
                     else []) entries
  | _ => []
  end.

(** The relative paths the first loop keeps, in the order of the walk. *)
Definition kept (fs : option node) : list Path :=
  match fs with
  | None => []
  | Some n =>
      flat_map
        (fun df =>
           if startswith (snd df) (lit "llmify")
              || endswith (snd df) (lit ".md.llm")
           then []
           else
             match lookup n (fst df ++ [snd df]) with
             | Some (File (Ok data)) =>
                 if text_window data then [fst df ++ [snd df]] else []
             | _ => []
             end)
        (rel_entries n)
  end.

(** The body of the section of [rel], when reading the file gives one. *)
Definition body_at (reader : Path -> io_result bytes) (base_dir rel : Path)
  : option str :=
  match reader (base_dir ++ rel) with
  | Ok data => Some (read_text data)
  | Raise _ => None
  end.

(** What the second loop leaves for the relative paths [rels]: the
    writes to the output file, and the lines on the two streams.  An
    entry whose heading cannot be encoded leaves an error line and
    nothing else. *)
Definition writes (reader : Path -> io_result bytes) (base_dir : Path)
    (rels : list Path) : list str :=
  flat_map
    (fun rel =>
       if encodable (heading rel)
       then heading rel :: match reader (base_dir ++ rel) with
                           | Ok data => [read_text data]
                           | Raise _ => []
                           end
       else [])
    rels.

Definition progress_lines (reader : Path -> io_result bytes) (base_dir : Path)
    (rels : list Path) : list str :=
  flat_map
    (fun rel =>
       if encodable (heading rel)
       then match reader (base_dir ++ rel) with
            | Ok _ => [lit "Processed: " ++ path_str rel]
            | Raise _ => []
            end
       else [])
    rels.

Definition error_lines (reader : Path -> io_result bytes) (base_dir : Path)
    (rels : list Path) : list str :=
  flat_map
    (fun rel =>
       if encodable (heading rel)
       then match reader (base_dir ++ rel) with
            | Ok _ => []
            | Raise e => [error_line (base_dir ++ rel) e]
            end
       else [error_line (base_dir ++ rel) (encode_error (heading rel))])
    rels.

(** A position at which a character can be decoded: the bytes start
    with the encoding of a code point. *)
Definition decodable_at (s : bytes) : Prop :=
  exists c enc rest, utf8_encode_char c = Some enc /\ s = enc ++ rest.

(** Decoding with replacement, as the specification words it: going
    through the bytes, the encoding of a character gives that
    character; where no character can be decoded, a run of bytes is
    replaced, in place, by one U+FFFD, and the run holds no position
    at which a character could have been decoded. *)
Inductive Replaced : bytes -> str -> Prop :=
| Replaced_nil : Replaced [] []
| Replaced_char (c : char) (enc rest : bytes) (out : str) :
    utf8_encode_char c = Some enc ->
    Replaced rest out ->
    Replaced (enc ++ rest) (c :: out)
| Replaced_error (bad rest : bytes) (out : str) :
    bad <> [] ->
    (forall pre suf, bad = pre ++ suf -> suf <> [] ->
                     ~ decodable_at (suf ++ rest)) ->
    Replaced rest out ->
    Replaced (bad ++ rest) (REPLACEMENT :: out).

(** Whether the bytes start with a well-formed UTF-8 sequence. *)
Definition starts_char (s : bytes) : bool :=
  match s with
  | [] => false
  | b1 :: s1 =>
    let ch := Byte.to_N b1 in
    if ch <? 0x80 then true
    else if ch <? 0xC2 then false
    else if ch <? 0xE0 then
      match s1 with
      | b2 :: _ => is_continuation b2
      | _ => false
      end
    else if ch <? 0xF0 then
      match s1 with
      | b2 :: b3 :: _ =>
          is_continuation b2
          && negb (if Byte.to_N b2 <? 0xA0 then ch =? 0xE0 else ch =? 0xED)
          && is_continuation b3
      | _ => false
      end
    else if ch <? 0xF5 then
      match s1 with
      | b2 :: b3 :: b4 :: _ =>
          is_continuation b2
          && negb (if Byte.to_N b2 <? 0x90 then ch =? 0xF0 else ch =? 0xF4)
          && is_continuation b3 && is_continuation b4
      | _ => false
      end
    else false
  end.

(** ** Trees to try the program on *)

Definition ascii_bytes (s : string) : bytes :=
  map byte_of_ascii (list_ascii_of_string s).
Arguments ascii_bytes s%_string.

Definition example_base : Path :=
  [lit "/"; lit "repo"; lit ".openhands"; lit "microagents"].

(** The scenario of the specification: two text files, a binary file,
    the script itself and the output file with what it holds so far. *)
Definition example_listing (output_content : bytes) : list (str * node) :=
  [(lit "sub", Dir (Some [(lit "b.txt", File (Ok (ascii_bytes "world")))]));
   (lit "llmify.py", File (Ok (ascii_bytes "#!/usr/bin/env python3")));
   (lit "bin.dat", File (Ok [x00; x01; x02]));
   (lit "microagents.md.llm", File (Ok output_content));
   (lit "a.txt", File (Ok (ascii_bytes "hello")))].

Definition example_tree : option node :=
  Some (Dir (Some (example_listing (ascii_bytes "# old")))).

(** A directory [a] beside a file [a.txt]. *)
Definition sibling_tree : option node :=
  Some (Dir (Some
    [(lit "a.txt", File (Ok (ascii_bytes "y")));
     (lit "a", Dir (Some [(lit "b", File (Ok (ascii_bytes "x")))]))])).

(** A file of 1024 letters followed by a null byte, and an empty file. *)
Definition long_tree : option node :=
  Some (Dir (Some
    [(lit "long.txt", File (Ok (repeat x61 1024 ++ [x00; x01])));
     (lit "empty.txt", File (Ok []))])).


(** One text file. *)
Definition single_tree : option node :=
  Some (Dir (Some [(lit "a.txt", File (Ok (ascii_bytes "hello")))])).

(** A time of reading at which every file is gone. *)
Definition gone_message (p : Path) : str :=
  lit "[Errno 2] No such file or directory: '" ++ path_str p ++ lit "'".

Definition gone (p : Path) : io_result bytes := Raise (gone_message p).

Definition empty_world : world :=
  {| output_file := []; stdout := []; stderr := [] |}.

(** A time of reading at which [victim] is gone and the rest of the
    tree is as it was. *)
Definition vanished (fs : option node) (base_dir victim : Path) (p : Path)
  : io_result bytes :=
  match path_compare p victim with
  | Eq => gone p
  | _ => open_rb fs base_dir p
  end.

(** A directory with nothing in it. *)
Definition empty_tree : option node := Some (Dir (Some [])).

(** A tree in which nothing is eligible: a binary file, the script,
    an earlier output, a file that cannot be opened and a directory
    that cannot be listed. *)
Definition barren_tree : option node :=
  Some (Dir (Some
    [(lit "bin.dat", File (Ok [x00; x01; x02]));
     (lit "llmify.py", File (Ok (ascii_bytes "#!/usr/bin/env python3")));
     (lit "microagents.md.llm", File (Ok (ascii_bytes "# old")));
     (lit "locked.txt", File (Raise (lit "[Errno 13] Permission denied")));
     (lit "private", Dir None)])).

(** The entries of a tree with a directory that cannot be listed
    beside a text file. *)
Definition private_entry : str * node := (lit "private", Dir None).

Definition public_entries : list (str * node) :=
  [(lit "a.txt", File (Ok (ascii_bytes "hello")))].

(** A directory [docs] with two files, between two files of the root
    whose names come before and after it. *)
Definition nested_tree : option node :=
  Some (Dir (Some
    [(lit "zebra.txt", File (Ok (ascii_bytes "z")));
     (lit "docs", Dir (Some
        [(lit "b.md", File (Ok (ascii_bytes "b")));
         (lit "a.md", File (Ok (ascii_bytes "a")));
         (lit "more", Dir (Some [(lit "c.md", File (Ok (ascii_bytes "c")))]))]));
     (lit "alpha.txt", File (Ok (ascii_bytes "al")))])).

(** A text file beside a directory that can be listed but not
    searched: [stat] raises on the file in it. *)
Definition denied_message : str :=
  lit "[Errno 13] Permission denied: '/repo/.openhands/microagents/private/key.txt'".

Definition denied_entry : str * node :=
  (lit "private", Dir (Some [(lit "key.txt", Denied denied_message)])).

Definition denied_tree : option node :=
  Some (Dir (Some [(lit "a.txt", File (Ok (ascii_bytes "hello")));
                   denied_entry])).


(** A text file whose name is not UTF-8: [os.walk] gives the byte
    [ff] of the name as the surrogate U+DCFF. *)
Definition surrogate_name : str := [0xDCFF] ++ lit ".txt".

Definition surrogate_tree : option node :=
  Some (Dir (Some [(surrogate_name, File (Ok (ascii_bytes "hello")))])).

(** ** Tactics *)

(** Boolean tests of the hypotheses, as propositions for [lia]. *)
Ltac bool_to_prop :=
  repeat match goal with
         | H : (_ <? _) = true |- _ => apply N.ltb_lt in H
         | H : (_ <? _) = false |- _ => apply N.ltb_ge in H
         | H : (_ <=? _) = true |- _ => apply N.leb_le in H
         | H : (_ <=? _) = false |- _ => apply N.leb_gt in H
         | H : (_ =? _) = true |- _ => apply N.eqb_eq in H
         | H : (_ =? _) = false |- _ => apply N.eqb_neq in H
         | H : is_continuation _ = true |- _ => unfold is_continuation in H
         | H : negb _ = true |- _ => apply negb_true_iff in H
         | H : negb _ = false |- _ => apply negb_false_iff in H
         | H : _ || _ = false |- _ => apply orb_false_iff in H; destruct H
         | H : _ && _ = true |- _ => apply andb_true_iff in H; destruct H
         end.

(** Boolean tests of the goal, decided from the hypotheses by [lia]. *)
Ltac decide_bools :=
  repeat match goal with
         | |- context [?a <? ?b] => destruct (N.ltb_spec a b); try lia
         | |- context [?a <=? ?b] => destruct (N.leb_spec a b); try lia
         | |- context [?a =? ?b] => destruct (N.eqb_spec a b); try lia
         end;
  cbn [andb orb negb]; try reflexivity.

(** * Properties *)

(** ** The orders *)

Section Lexicographic.
Context {A : Type} (cmp : A -> A -> comparison).
Hypothesis cmp_eq : forall a b, cmp a b = Eq <-> a = b.
Hypothesis cmp_antisym : forall a b, cmp b a = CompOpp (cmp a b).
Hypothesis cmp_trans : forall a b c, cmp a b = Lt -> cmp b c = Lt -> cmp a c = Lt.

Lemma lex_compare_eq (x y : list A) : lex_compare cmp x y = Eq <-> x = y.
Proof.
  revert y. induction x as [|a x IH]; intros [|b y]; simpl;
    try (split; [discriminate | discriminate]); try tauto.
  destruct (cmp a b) eqn:E.
  - apply cmp_eq in E. subst b. rewrite IH. split; congruence.
  - split; [discriminate|]. intros H. inversion H; subst.
    rewrite (proj2 (cmp_eq _ _) eq_refl) in E. discriminate.
  - split; [discriminate|]. intros H. inversion H; subst.
    rewrite (proj2 (cmp_eq _ _) eq_refl) in E. discriminate.
Qed.

Lemma lex_compare_antisym (x y : list A) :
  lex_compare cmp y x = CompOpp (lex_compare cmp x y).
Proof.
  revert y. induction x as [|a x IH]; intros [|b y]; simpl; try reflexivity.
  rewrite (cmp_antisym a b). destruct (cmp a b); simpl; auto.
Qed.

Lemma lex_compare_trans (x y z : list A) :
  lex_compare cmp x y = Lt -> lex_compare cmp y z = Lt ->
  lex_compare cmp x z = Lt.
Proof.
  revert y z. induction x as [|a x IH]; intros [|b y] [|c z]; simpl;
    try discriminate; try reflexivity.
  destruct (cmp a b) eqn:Eab; try discriminate.
  - apply cmp_eq in Eab. subst b.
    destruct (cmp a c); try discriminate; eauto.
  - intros _. destruct (cmp b c) eqn:Ebc; try discriminate.
    + apply cmp_eq in Ebc. subst c. now rewrite Eab.
    + intros _. now rewrite (cmp_trans _ _ _ Eab Ebc).
Qed.

Lemma lex_compare_prefix (p x y : list A) :
  lex_compare cmp (p ++ x) (p ++ y) = lex_compare cmp x y.
Proof.
  induction p as [|a p IH]; simpl; auto.
  assert (cmp a a = Eq) as -> by now apply cmp_eq. exact IH.
Qed.
End Lexicographic.

Lemma str_compare_eq (a b : str) : str_compare a b = Eq <-> a = b.
Proof. apply lex_compare_eq, N.compare_eq_iff. Qed.

Lemma str_compare_antisym (a b : str) :
  str_compare b a = CompOpp (str_compare a b).
Proof. apply lex_compare_antisym. intros; apply N.compare_antisym. Qed.

Lemma str_compare_trans (a b c : str) :
  str_compare a b = Lt -> str_compare b c = Lt -> str_compare a c = Lt.
Proof.
  apply lex_compare_trans.
  - apply N.compare_eq_iff.
  - intros x y z. rewrite !N.compare_lt_iff. apply N.lt_trans.
Qed.

Lemma str_eqb_eq (a b : str) : str_eqb a b = true <-> a = b.
Proof.
  unfold str_eqb. rewrite <- str_compare_eq.
  destruct (str_compare a b); split; congruence.
Qed.

Lemma str_eqb_refl (a : str) : str_eqb a a = true.
Proof. now apply str_eqb_eq. Qed.

Lemma path_compare_eq (a b : Path) : path_compare a b = Eq <-> a = b.
Proof. apply lex_compare_eq, str_compare_eq. Qed.

Lemma path_compare_antisym (a b : Path) :
  path_compare b a = CompOpp (path_compare a b).
Proof. apply lex_compare_antisym, str_compare_antisym. Qed.

Lemma path_compare_trans (a b c : Path) :
  path_compare a b = Lt -> path_compare b c = Lt -> path_compare a c = Lt.
Proof.
  apply lex_compare_trans.
  - apply str_compare_eq.
  - apply str_compare_trans.
Qed.

Lemma path_compare_prefix (base a b : Path) :
  path_compare (base ++ a) (base ++ b) = path_compare a b.
Proof. apply lex_compare_prefix, str_compare_eq. Qed.

Lemma path_lt_irrefl (a : Path) : ~ path_lt a a.
Proof.
  unfold path_lt, path_ltb.
  assert (path_compare a a = Eq) as -> by now apply path_compare_eq.
  discriminate.
Qed.

Lemma path_lt_trans (a b c : Path) : path_lt a b -> path_lt b c -> path_lt a c.
Proof.
  unfold path_lt, path_ltb. intros H1 H2.
  destruct (path_compare a b) eqn:E1; try discriminate.
  destruct (path_compare b c) eqn:E2; try discriminate.
  now rewrite (path_compare_trans _ _ _ E1 E2).
Qed.

(** Two different paths are ordered one way or the other. *)
Lemma path_lt_total (a b : Path) : a <> b -> path_ltb b a = false -> path_lt a b.
Proof.
  unfold path_lt, path_ltb. intros Hne. rewrite (path_compare_antisym a b).
  destruct (path_compare a b) eqn:E; simpl; try congruence.
  apply path_compare_eq in E. contradiction.
Qed.

Lemma path_lt_prefix (base a b : Path) :
  path_ltb (base ++ a) (base ++ b) = path_ltb a b.
Proof. unfold path_ltb. now rewrite path_compare_prefix. Qed.

(** ** The sort *)

Lemma insert_In (a : Path) (l : list Path) (x : Path) :
  In x (insert a l) <-> x = a \/ In x l.
Proof.
  induction l as [|b l IH]; simpl.
  - intuition congruence.
  - destruct (path_ltb b a); simpl; rewrite ?IH; intuition congruence.
Qed.

Lemma sort_In (l : list Path) (x : Path) : In x (sort l) <-> In x l.
Proof.
  induction l as [|a l IH]; simpl; [tauto|].
  rewrite insert_In, IH. intuition congruence.
Qed.

Lemma insert_sorted (a : Path) (l : list Path) :
  StronglySorted path_lt l -> ~ In a l -> StronglySorted path_lt (insert a l).
Proof.
  induction 1 as [|b l Hs IH Hb]; simpl; intros Hnot.
  - repeat constructor.
  - destruct (path_ltb b a) eqn:E.
    + constructor.
      * apply IH. tauto.
      * apply Forall_forall. intros x Hx. apply insert_In in Hx.
        destruct Hx as [->|Hx]; [exact E|].
        rewrite Forall_forall in Hb. auto.
    + assert (Hab : path_lt a b) by (apply path_lt_total; auto).
      constructor; [constructor; assumption|].
      constructor; [assumption|].
      rewrite Forall_forall in Hb |- *.
      intros x Hx. eapply path_lt_trans; eauto.
Qed.

Lemma sort_sorted (l : list Path) :
  NoDup l -> StronglySorted path_lt (sort l).
Proof.
  induction 1 as [|a l Hnot Hnd IH]; simpl; [constructor|].
  apply insert_sorted; auto. now rewrite sort_In.
Qed.

(** A strictly ascending list is determined by its elements, for any
    strict order. *)
Section StrictlySorted.
Context {A : Type} (R : A -> A -> Prop).
Hypothesis R_irrefl : forall a, ~ R a a.
Hypothesis R_trans : forall a b c, R a b -> R b c -> R a c.

Lemma strictly_sorted_unique (l1 l2 : list A) :
  StronglySorted R l1 -> StronglySorted R l2 ->
  (forall x, In x l1 <-> In x l2) -> l1 = l2.
Proof.
  intros H1. revert l2.
  induction H1 as [|a l1 Hs1 IH Ha]; intros l2 H2 Hin.
  - destruct l2 as [|b l2]; [reflexivity|].
    destruct (proj2 (Hin b)). now left.
  - destruct H2 as [|b l2 Hs2 Hb].
    + destruct (proj1 (Hin a)). now left.
    + rewrite Forall_forall in Ha, Hb.
      assert (a = b) as <-.
      { destruct (proj1 (Hin a) (or_introl eq_refl)) as [E|E]; [congruence|].
        destruct (proj2 (Hin b) (or_introl eq_refl)) as [E'|E']; [congruence|].
        destruct (R_irrefl a). eapply R_trans; eauto. }
      f_equal. apply IH; [assumption|].
      intros x. split; intros Hx.
      * destruct (proj1 (Hin x) (or_intror Hx)) as [E|E]; [|exact E].
        subst x. destruct (R_irrefl a). auto.
      * destruct (proj2 (Hin x) (or_intror Hx)) as [E|E]; [|exact E].
        subst x. destruct (R_irrefl a). auto.
Qed.

Lemma strictly_sorted_NoDup (l : list A) : StronglySorted R l -> NoDup l.
Proof.
  induction 1 as [|a l Hs IH Ha]; constructor; [|exact IH].
  intros Hin. rewrite Forall_forall in Ha. destruct (R_irrefl a). auto.
Qed.
End StrictlySorted.

Lemma sorted_unique (l1 l2 : list Path) :
  StronglySorted path_lt l1 -> StronglySorted path_lt l2 ->
  (forall x, In x l1 <-> In x l2) -> l1 = l2.
Proof.
  apply strictly_sorted_unique; [apply path_lt_irrefl|apply path_lt_trans].
Qed.

Lemma text_lt_irrefl (a : Path) : ~ text_lt a a.
Proof.
  unfold text_lt, str_ltb.
  assert (str_compare (path_str a) (path_str a) = Eq) as ->
      by now apply str_compare_eq.
  discriminate.
Qed.

Lemma text_lt_trans (a b c : Path) : text_lt a b -> text_lt b c -> text_lt a c.
Proof.
  unfold text_lt, str_ltb. intros H1 H2.
  destruct (str_compare (path_str a) (path_str b)) eqn:E1; try discriminate.
  destruct (str_compare (path_str b) (path_str c)) eqn:E2; try discriminate.
  now rewrite (str_compare_trans _ _ _ E1 E2).
Qed.

Lemma insert_prefix (base a : Path) (l : list Path) :
  insert (base ++ a) (map (app base) l) = map (app base) (insert a l).
Proof.
  induction l as [|b l IH]; cbn [insert map]; [reflexivity|].
  rewrite path_lt_prefix. destruct (path_ltb b a); cbn [map];
    [rewrite IH|]; reflexivity.
Qed.

(** Sorting the full paths is sorting the relative paths. *)
Lemma sort_prefix (base : Path) (l : list Path) :
  sort (map (app base) l) = map (app base) (sort l).
Proof.
  induction l as [|a l IH]; cbn [sort map]; [reflexivity|].
  now rewrite IH, insert_prefix.
Qed.

(** ** Statements *)

(** What holds of the state before a loop and is kept by its body
    holds of the state the loop leaves, however it ends. *)
Lemma for_each_invariant {S A : Type} (P : S -> Prop) (body : A -> M S unit)
    (xs : list A) :
  (forall x s, P s -> P (fst (body x s))) ->
  forall s, P s -> P (fst (for_each body xs s)).
Proof.
  intros Hb. induction xs as [|x xs IH]; intros s Hs; [exact Hs|].
  cbn [for_each]. unfold bind. specialize (Hb x s Hs).
  destruct (body x s) as [s' [u|e]]; cbn [fst] in *; auto.
Qed.

(** A loop whose body appends to a list or raises: either it raises,
    or it has appended what each element gives, in order. *)
Lemma for_each_completes {A B : Type} (f : A -> list B)
    (body : A -> M (list B) unit) (xs : list A) :
  (forall x s, (exists s' e, body x s = (s', Raise e))
               \/ body x s = (s ++ f x, Ok tt)) ->
  forall s, (exists s' e, for_each body xs s = (s', Raise e))
            \/ for_each body xs s = (s ++ flat_map f xs, Ok tt).
Proof.
  intros Hb. induction xs as [|x xs IH]; intros s.
  - right. cbn. now rewrite app_nil_r.
  - cbn [for_each flat_map]. unfold bind.
    destruct (Hb x s) as [[s' [e E]]|E]; rewrite E; [left; eauto|].
    rewrite app_assoc. apply IH.
Qed.

Lemma for_each_ext {S A : Type} (body1 body2 : A -> M S unit) (xs : list A) :
  (forall x, In x xs -> forall s, body1 x s = body2 x s) ->
  forall s, for_each body1 xs s = for_each body2 xs s.
Proof.
  induction xs as [|x xs IH]; intros Hb s; [reflexivity|].
  cbn [for_each]. unfold bind. rewrite (Hb x (or_introl eq_refl)).
  destruct (body2 x s) as [s' [u|e]]; [|reflexivity].
  apply IH. intros y Hy. apply Hb. now right.
Qed.

(** A loop whose body appends to a list, or raises on the elements
    that are [bad]: it raises exactly when an element is [bad]. *)
Lemma for_each_raises {A B : Type} (f : A -> list B) (bad : A -> Prop)
    (body : A -> M (list B) unit) (xs : list A) :
  (forall x s, (bad x /\ exists s' e, body x s = (s', Raise e))
               \/ (~ bad x /\ body x s = (s ++ f x, Ok tt))) ->
  forall s, (exists s' e, for_each body xs s = (s', Raise e))
            <-> (exists x, In x xs /\ bad x).
Proof.
  intros Hb. induction xs as [|x xs IH]; intros s.
  - cbn. split; [intros [s' [e H]]; discriminate|intros [x [[] _]]].
  - cbn [for_each]. unfold bind.
    destruct (Hb x s) as [[Hbad [s' [e E]]]|[Hok E]]; rewrite E.
    + split; [intros _; exists x; split; [now left|exact Hbad]|eauto].
    + rewrite IH. split; intros [y [Hy Hbady]]; exists y;
        (split; [|exact Hbady]).
      * now right.
      * destruct Hy as [<-|Hy]; [contradiction|exact Hy].
Qed.

(** ** UTF-8 *)

Lemma byte_of_to_N (b : byte) : byte_of_N (Byte.to_N b) = b.
Proof. unfold byte_of_N. now rewrite Byte.of_to_N. Qed.

Lemma to_N_byte_of_N (n : N) : n < 256 -> Byte.to_N (byte_of_N n) = n.
Proof.
  intros Hn. unfold byte_of_N. destruct (Byte.of_N n) as [b|] eqn:E.
  - now apply Byte.to_of_N.
  - apply Byte.of_N_None_iff in E. lia.
Qed.

Lemma div_mod_64 (c : N) : c = c / 64 * 64 + c mod 64 /\ c mod 64 < 64.
Proof.
  split.
  - rewrite N.mul_comm. apply N.div_mod'.
  - now apply N.mod_lt.
Qed.

Lemma div_4096 (c : N) : c / 4096 = c / 64 / 64.
Proof. now rewrite N.Div0.div_div. Qed.

Lemma div_262144 (c : N) : c / 262144 = c / 64 / 64 / 64.
Proof. now rewrite !N.Div0.div_div. Qed.

Lemma div_64 (a r : N) : r < 64 -> (a * 64 + r) / 64 = a.
Proof. intros Hr. symmetry. apply N.div_unique with r; lia. Qed.

Lemma mod_64 (a r : N) : r < 64 -> (a * 64 + r) mod 64 = r.
Proof. intros Hr. symmetry. apply N.mod_unique with a; lia. Qed.

Lemma encode_one (b : byte) :
  Byte.to_N b < 0x80 -> utf8_encode_char (Byte.to_N b) = Some [b].
Proof.
  intros H. unfold utf8_encode_char. apply N.ltb_lt in H. rewrite H.
  now rewrite byte_of_to_N.
Qed.

Lemma encode_two (b1 b2 : byte) :
  0xC2 <= Byte.to_N b1 < 0xE0 -> is_continuation b2 = true ->
  utf8_encode_char ((Byte.to_N b1 - 0xC0) * 64 + (Byte.to_N b2 - 0x80))
  = Some [b1; b2].
Proof.
  intros H1 H2. bool_to_prop. unfold utf8_encode_char.
  set (c := (Byte.to_N b1 - 0xC0) * 64 + (Byte.to_N b2 - 0x80)).
  assert (Hd : c / 64 = Byte.to_N b1 - 0xC0) by (apply div_64; lia).
  assert (Hm : c mod 64 = Byte.to_N b2 - 0x80) by (apply mod_64; lia).
  destruct (N.ltb_spec c 0x80); [lia|].
  destruct (N.ltb_spec c 0x800); [|lia].
  rewrite Hd, Hm.
  replace (0xC0 + (Byte.to_N b1 - 0xC0)) with (Byte.to_N b1) by lia.
  replace (0x80 + (Byte.to_N b2 - 0x80)) with (Byte.to_N b2) by lia.
  now rewrite !byte_of_to_N.
Qed.

Lemma encode_three (b1 b2 b3 : byte) :
  0xE0 <= Byte.to_N b1 < 0xF0 ->
  is_continuation b2 = true ->
  (if Byte.to_N b2 <? 0xA0 then Byte.to_N b1 =? 0xE0 else Byte.to_N b1 =? 0xED)
  = false ->
  is_continuation b3 = true ->
  utf8_encode_char ((Byte.to_N b1 - 0xE0) * 4096 + (Byte.to_N b2 - 0x80) * 64
                    + (Byte.to_N b3 - 0x80))
  = Some [b1; b2; b3].
Proof.
  intros H1 H2 Hx H3. bool_to_prop. unfold utf8_encode_char, is_scalar.
  set (c := (Byte.to_N b1 - 0xE0) * 4096 + (Byte.to_N b2 - 0x80) * 64
            + (Byte.to_N b3 - 0x80)).
  assert (Hc : c = ((Byte.to_N b1 - 0xE0) * 64 + (Byte.to_N b2 - 0x80)) * 64
                   + (Byte.to_N b3 - 0x80)) by lia.
  assert (Hd1 : c / 64 = (Byte.to_N b1 - 0xE0) * 64 + (Byte.to_N b2 - 0x80))
    by (rewrite Hc; apply div_64; lia).
  assert (Hm1 : c mod 64 = Byte.to_N b3 - 0x80)
    by (rewrite Hc; apply mod_64; lia).
  assert (Hd2 : c / 4096 = Byte.to_N b1 - 0xE0)
    by (rewrite div_4096, Hd1; apply div_64; lia).
  assert (Hm2 : (c / 64) mod 64 = Byte.to_N b2 - 0x80)
    by (rewrite Hd1; apply mod_64; lia).
  assert (Hrange : 0x800 <= c < 0x10000
                   /\ (c < 0xD800 \/ 0xE000 <= c)).
  { destruct (N.ltb_spec (Byte.to_N b2) 0xA0); bool_to_prop; lia. }
  destruct (N.ltb_spec c 0x80); [lia|].
  destruct (N.ltb_spec c 0x800); [lia|].
  destruct (N.ltb_spec c 0xD800), (N.leb_spec 0xE000 c),
    (N.ltb_spec c 0x110000), (N.ltb_spec c 0x10000);
    cbn [andb orb negb]; try lia;
    rewrite Hd2, Hm2, Hm1;
    replace (0xE0 + (Byte.to_N b1 - 0xE0)) with (Byte.to_N b1) by lia;
    replace (0x80 + (Byte.to_N b2 - 0x80)) with (Byte.to_N b2) by lia;
    replace (0x80 + (Byte.to_N b3 - 0x80)) with (Byte.to_N b3) by lia;
    now rewrite !byte_of_to_N.
Qed.

Lemma encode_four (b1 b2 b3 b4 : byte) :
  0xF0 <= Byte.to_N b1 < 0xF5 ->
  is_continuation b2 = true ->
  (if Byte.to_N b2 <? 0x90 then Byte.to_N b1 =? 0xF0 else Byte.to_N b1 =? 0xF4)
  = false ->
  is_continuation b3 = true ->
  is_continuation b4 = true ->
  utf8_encode_char ((Byte.to_N b1 - 0xF0) * 262144
                    + (Byte.to_N b2 - 0x80) * 4096
                    + (Byte.to_N b3 - 0x80) * 64 + (Byte.to_N b4 - 0x80))
  = Some [b1; b2; b3; b4].
Proof.
  intros H1 H2 Hx H3 H4. bool_to_prop. unfold utf8_encode_char, is_scalar.
  set (c := (Byte.to_N b1 - 0xF0) * 262144 + (Byte.to_N b2 - 0x80) * 4096
            + (Byte.to_N b3 - 0x80) * 64 + (Byte.to_N b4 - 0x80)).
  assert (Hc : c = (((Byte.to_N b1 - 0xF0) * 64 + (Byte.to_N b2 - 0x80)) * 64
                    + (Byte.to_N b3 - 0x80)) * 64 + (Byte.to_N b4 - 0x80))
    by lia.
  assert (Hd1 : c / 64 = ((Byte.to_N b1 - 0xF0) * 64 + (Byte.to_N b2 - 0x80)) * 64
                         + (Byte.to_N b3 - 0x80))
    by (rewrite Hc; apply div_64; lia).
  assert (Hm1 : c mod 64 = Byte.to_N b4 - 0x80)
    by (rewrite Hc; apply mod_64; lia).
  assert (Hd2 : c / 4096 = (Byte.to_N b1 - 0xF0) * 64 + (Byte.to_N b2 - 0x80))
    by (rewrite div_4096, Hd1; apply div_64; lia).
  assert (Hm2 : (c / 64) mod 64 = Byte.to_N b3 - 0x80)
    by (rewrite Hd1; apply mod_64; lia).
  assert (Hd3 : c / 262144 = Byte.to_N b1 - 0xF0)
    by (rewrite div_262144, <- (div_4096 c), Hd2; apply div_64; lia).
  assert (Hm3 : (c / 4096) mod 64 = Byte.to_N b2 - 0x80)
    by (rewrite Hd2; apply mod_64; lia).
  assert (Hrange : 0x10000 <= c < 0x110000).
  { destruct (N.ltb_spec (Byte.to_N b2) 0x90); bool_to_prop; lia. }
  destruct (N.ltb_spec c 0x80); [lia|].
  destruct (N.ltb_spec c 0x800); [lia|].
  destruct (N.ltb_spec c 0xD800), (N.leb_spec 0xE000 c),
    (N.ltb_spec c 0x110000), (N.ltb_spec c 0x10000);
    cbn [andb orb negb]; try lia;
    rewrite Hd3, Hm3, Hm2, Hm1;
    replace (0xF0 + (Byte.to_N b1 - 0xF0)) with (Byte.to_N b1) by lia;
    replace (0x80 + (Byte.to_N b2 - 0x80)) with (Byte.to_N b2) by lia;
    replace (0x80 + (Byte.to_N b3 - 0x80)) with (Byte.to_N b3) by lia;
    replace (0x80 + (Byte.to_N b4 - 0x80)) with (Byte.to_N b4) by lia;
    now rewrite !byte_of_to_N.
Qed.

Lemma is_scalar_spec (c : char) :
  is_scalar c = true <-> c < 0xD800 \/ 0xE000 <= c < 0x110000.
Proof.
  unfold is_scalar.
  rewrite orb_true_iff, andb_true_iff, !N.ltb_lt, N.leb_le. tauto.
Qed.

Lemma Some_inj {A : Type} (a b : A) : Some a = Some b -> a = b.
Proof. congruence. Qed.

(** The encoding of a code point is a well-formed sequence. *)
Lemma encoded_starts_char (c : char) (enc rest : bytes) :
  utf8_encode_char c = Some enc -> starts_char (enc ++ rest) = true.
Proof.
  unfold utf8_encode_char. rewrite div_4096, div_262144.
  destruct (div_mod_64 c) as [E1 L1].
  remember (c / 64) as q1 eqn:Hq1. remember (c mod 64) as r1 eqn:Hr1.
  destruct (div_mod_64 q1) as [E2 L2].
  remember (q1 / 64) as q2 eqn:Hq2. remember (q1 mod 64) as r2 eqn:Hr2.
  destruct (div_mod_64 q2) as [E3 L3].
  remember (q2 / 64) as q3 eqn:Hq3. remember (q2 mod 64) as r3 eqn:Hr3.
  clear Hq1 Hr1 Hq2 Hr2 Hq3 Hr3.
  destruct (N.ltb_spec c 0x80).
  { intros E; apply Some_inj in E; rewrite <- E; clear E.
    cbv [app starts_char].
    rewrite to_N_byte_of_N by lia. decide_bools. }
  destruct (N.ltb_spec c 0x800).
  { intros E; apply Some_inj in E; rewrite <- E; clear E.
    cbv [app starts_char is_continuation].
    rewrite !to_N_byte_of_N by lia. decide_bools. }
  destruct (is_scalar c) eqn:Hs; cbv [negb]; [|discriminate].
  apply is_scalar_spec in Hs.
  destruct (N.ltb_spec c 0x10000).
  { intros E; apply Some_inj in E; rewrite <- E; clear E.
    cbv [app starts_char is_continuation].
    rewrite !to_N_byte_of_N by lia. decide_bools. }
  intros E; apply Some_inj in E; rewrite <- E; clear E.
  cbv [app starts_char is_continuation].
  rewrite !to_N_byte_of_N by lia. decide_bools.
Qed.

Lemma not_decodable (s : bytes) : starts_char s = false -> ~ decodable_at s.
Proof.
  intros Hs [c [enc [rest [He ->]]]].
  rewrite (encoded_starts_char c enc rest He) in Hs. discriminate.
Qed.

Lemma starts_char_continuation (b : byte) (s : bytes) :
  is_continuation b = true -> starts_char (b :: s) = false.
Proof.
  intros H. bool_to_prop. cbn [starts_char]. decide_bools.
Qed.

(** Runs of one, two and three bytes that are replaced. *)
Lemma Replaced_one (b1 : byte) (rest : bytes) (out : str) :
  starts_char (b1 :: rest) = false ->
  Replaced rest out -> Replaced (b1 :: rest) (REPLACEMENT :: out).
Proof.
  intros H1 Hr. apply (Replaced_error [b1] rest out); [discriminate| |exact Hr].
  intros pre suf E Hsuf.
  destruct pre as [|p [|p' pre]]; cbn in E.
  - subst suf. now apply not_decodable.
  - injection E as _ <-. now destruct Hsuf.
  - destruct pre; discriminate.
Qed.

Lemma Replaced_two (b1 b2 : byte) (rest : bytes) (out : str) :
  starts_char (b1 :: b2 :: rest) = false ->
  starts_char (b2 :: rest) = false ->
  Replaced rest out -> Replaced (b1 :: b2 :: rest) (REPLACEMENT :: out).
Proof.
  intros H1 H2 Hr.
  apply (Replaced_error [b1; b2] rest out); [discriminate| |exact Hr].
  intros pre suf E Hsuf.
  destruct pre as [|p [|p' [|p'' pre]]]; cbn in E.
  - subst suf. now apply not_decodable.
  - injection E as _ <-. now apply not_decodable.
  - injection E as _ _ <-. now destruct Hsuf.
  - destruct pre; discriminate.
Qed.

Lemma Replaced_three (b1 b2 b3 : byte) (rest : bytes) (out : str) :
  starts_char (b1 :: b2 :: b3 :: rest) = false ->
  starts_char (b2 :: b3 :: rest) = false ->
  starts_char (b3 :: rest) = false ->
  Replaced rest out -> Replaced (b1 :: b2 :: b3 :: rest) (REPLACEMENT :: out).
Proof.
  intros H1 H2 H3 Hr.
  apply (Replaced_error [b1; b2; b3] rest out); [discriminate| |exact Hr].
  intros pre suf E Hsuf.
  destruct pre as [|p [|p' [|p'' [|p''' pre]]]]; cbn in E.
  - subst suf. now apply not_decodable.
  - injection E as _ <-. now apply not_decodable.
  - injection E as _ _ <-. now apply not_decodable.
  - injection E as _ _ _ <-. now destruct Hsuf.
  - destruct pre; discriminate.
Qed.

Lemma utf8_decode_Replaced_bounded (n : nat) :
  forall s : bytes, (List.length s <= n)%nat -> Replaced s (utf8_decode s).
Proof.
  induction n as [|n IH]; intros s Hlen.
  { destruct s; [constructor|]. cbn in Hlen. lia. }
  destruct s as [|b1 s1]; [constructor|]. cbn [List.length] in Hlen.
  assert (IH1 : Replaced s1 (utf8_decode s1)) by (apply IH; lia).
  cbn [utf8_decode]. remember (utf8_decode s1) as d1 eqn:Hd1. clear Hd1.
  destruct (Byte.to_N b1 <? 0x80) eqn:C1.
  { apply (Replaced_char _ [b1] s1 d1); [|exact IH1].
    apply encode_one. now apply N.ltb_lt. }
  destruct (Byte.to_N b1 <? 0xC2) eqn:C2.
  { apply Replaced_one; [|exact IH1].
    cbv [starts_char]. now rewrite C1, C2. }
  destruct (Byte.to_N b1 <? 0xE0) eqn:C3.
  { destruct s1 as [|b2 s2].
    - apply (Replaced_one b1 [] []); [|constructor].
      cbv [starts_char]. now rewrite C1, C2, C3.
    - assert (IH2 : Replaced s2 (utf8_decode s2))
        by (apply IH; cbn in Hlen; lia).
      destruct (is_continuation b2) eqn:K2.
      + apply (Replaced_char _ [b1; b2] s2); [|exact IH2].
        apply encode_two; [|exact K2]. bool_to_prop. lia.
      + apply Replaced_one; [|exact IH1].
        cbv [starts_char]. now rewrite C1, C2, C3. }
  destruct (Byte.to_N b1 <? 0xF0) eqn:C4.
  { destruct s1 as [|b2 s2].
    - apply (Replaced_one b1 [] []); [|constructor].
      cbv [starts_char]. now rewrite C1, C2, C3, C4.
    - assert (IH2 : Replaced s2 (utf8_decode s2))
        by (apply IH; cbn in Hlen; lia).
      remember (utf8_decode s2) as d2 eqn:Hd2. clear Hd2.
      remember (if Byte.to_N b2 <? 0xA0 then Byte.to_N b1 =? 0xE0
                else Byte.to_N b1 =? 0xED) as X eqn:HX.
      destruct (is_continuation b2) eqn:K2; cbn [negb orb].
      2: { apply Replaced_one; [|exact IH1].
           cbv [starts_char]. rewrite C1, C2, C3, C4.
           destruct s2; [reflexivity|]. now rewrite K2. }
      destruct X.
      { apply Replaced_one; [|exact IH1].
        cbv [starts_char]. rewrite C1, C2, C3, C4.
        destruct s2; [reflexivity|]. now rewrite K2, <- HX. }
      destruct s2 as [|b3 s3].
      + apply (Replaced_two b1 b2 [] []); [| |constructor].
        * cbv [starts_char]. now rewrite C1, C2, C3, C4.
        * now apply starts_char_continuation.
      + assert (IH3 : Replaced s3 (utf8_decode s3))
          by (apply IH; cbn in Hlen; lia).
        destruct (is_continuation b3) eqn:K3.
        * apply (Replaced_char _ [b1; b2; b3] s3); [|exact IH3].
          apply encode_three; auto. bool_to_prop. lia.
        * apply Replaced_two; [| |exact IH2].
          -- cbv [starts_char]. rewrite C1, C2, C3, C4, K2, K3.
             now rewrite andb_false_r.
          -- now apply starts_char_continuation. }
  destruct (Byte.to_N b1 <? 0xF5) eqn:C5.
  { destruct s1 as [|b2 s2].
    - apply (Replaced_one b1 [] []); [|constructor].
      cbv [starts_char]. now rewrite C1, C2, C3, C4, C5.
    - assert (IH2 : Replaced s2 (utf8_decode s2))
        by (apply IH; cbn in Hlen; lia).
      remember (utf8_decode s2) as d2 eqn:Hd2. clear Hd2.
      remember (if Byte.to_N b2 <? 0x90 then Byte.to_N b1 =? 0xF0
                else Byte.to_N b1 =? 0xF4) as X eqn:HX.
      destruct (is_continuation b2) eqn:K2; cbn [negb orb].
      2: { apply Replaced_one; [|exact IH1].
           cbv [starts_char]. rewrite C1, C2, C3, C4, C5.
           destruct s2 as [|? [|? ?]]; try reflexivity. now rewrite K2. }
      destruct X.
      { apply Replaced_one; [|exact IH1].
        cbv [starts_char]. rewrite C1, C2, C3, C4, C5.
        destruct s2 as [|? [|? ?]]; try reflexivity. now rewrite K2, <- HX. }
      destruct s2 as [|b3 s3].
      + apply (Replaced_two b1 b2 [] []); [| |constructor].
        * cbv [starts_char]. now rewrite C1, C2, C3, C4, C5.
        * now apply starts_char_continuation.
      + assert (IH3 : Replaced s3 (utf8_decode s3))
          by (apply IH; cbn in Hlen; lia).
        remember (utf8_decode s3) as d3 eqn:Hd3. clear Hd3.
        destruct (is_continuation b3) eqn:K3.
        2: { apply Replaced_two; [| |exact IH2].
             - cbv [starts_char]. rewrite C1, C2, C3, C4, C5.
               destruct s3; [reflexivity|].
               rewrite K2, K3, <- HX. reflexivity.
             - now apply starts_char_continuation. }
        destruct s3 as [|b4 s4].
        * apply (Replaced_three b1 b2 b3 [] []); [| | |constructor].
          -- cbv [starts_char]. now rewrite C1, C2, C3, C4, C5.
          -- now apply starts_char_continuation.
          -- now apply starts_char_continuation.
        * assert (IH4 : Replaced s4 (utf8_decode s4))
            by (apply IH; cbn in Hlen; lia).
          destruct (is_continuation b4) eqn:K4.
          -- apply (Replaced_char _ [b1; b2; b3; b4] s4); [|exact IH4].
             apply encode_four; auto. bool_to_prop. lia.
          -- apply Replaced_three; [| | |exact IH3].
             ++ cbv [starts_char]. rewrite C1, C2, C3, C4, C5, K2, K3, K4.
                now rewrite andb_false_r.
             ++ now apply starts_char_continuation.
             ++ now apply starts_char_continuation. }
  apply Replaced_one; [|exact IH1].
  cbv [starts_char]. now rewrite C1, C2, C3, C4, C5.
Qed.

(** The decoder replaces in place. *)
Lemma utf8_decode_Replaced (s : bytes) : Replaced s (utf8_decode s).
Proof. apply (utf8_decode_Replaced_bounded (List.length s)). lia. Qed.

(** Decoding the encoding of a character gives the character back. *)
Lemma utf8_decode_encoded (c : char) (enc rest : bytes) :
  utf8_encode_char c = Some enc ->
  utf8_decode (enc ++ rest) = c :: utf8_decode rest.
Proof.
  unfold utf8_encode_char. rewrite div_4096, div_262144.
  destruct (div_mod_64 c) as [E1 L1].
  remember (c / 64) as q1 eqn:Hq1. remember (c mod 64) as r1 eqn:Hr1.
  destruct (div_mod_64 q1) as [E2 L2].
  remember (q1 / 64) as q2 eqn:Hq2. remember (q1 mod 64) as r2 eqn:Hr2.
  destruct (div_mod_64 q2) as [E3 L3].
  remember (q2 / 64) as q3 eqn:Hq3. remember (q2 mod 64) as r3 eqn:Hr3.
  clear Hq1 Hr1 Hq2 Hr2 Hq3 Hr3.
  destruct (N.ltb_spec c 0x80).
  { intros E; apply Some_inj in E; rewrite <- E; clear E.
    cbn [app utf8_decode]. rewrite to_N_byte_of_N by lia. decide_bools. }
  destruct (N.ltb_spec c 0x800).
  { intros E; apply Some_inj in E; rewrite <- E; clear E.
    cbn [app utf8_decode]. unfold is_continuation.
    rewrite !to_N_byte_of_N by lia. decide_bools; f_equal; lia. }
  destruct (is_scalar c) eqn:Hs; cbv [negb]; [|discriminate].
  apply is_scalar_spec in Hs.
  destruct (N.ltb_spec c 0x10000).
  { intros E; apply Some_inj in E; rewrite <- E; clear E.
    cbn [app utf8_decode]. unfold is_continuation.
    rewrite !to_N_byte_of_N by lia. decide_bools; f_equal; lia. }
  intros E; apply Some_inj in E; rewrite <- E; clear E.
  cbn [app utf8_decode]. unfold is_continuation.
  rewrite !to_N_byte_of_N by lia. decide_bools; f_equal; lia.
Qed.

(** Text that was encoded as UTF-8 is decoded as it was. *)
Lemma utf8_decode_encode (text : str) :
  forall data, utf8_encode text = Some data -> utf8_decode data = text.
Proof.
  induction text as [|c text IH]; intros data; cbn [utf8_encode].
  - intros E. apply Some_inj in E. now subst data.
  - destruct (utf8_encode_char c) as [enc|] eqn:Ec; [|discriminate].
    destruct (utf8_encode text) as [rest|]; [|discriminate].
    intros E. apply Some_inj in E. subst data.
    rewrite (utf8_decode_encoded c enc rest Ec). f_equal. now apply IH.
Qed.

Lemma encoded_scalar (c : char) (enc : bytes) :
  utf8_encode_char c = Some enc -> is_scalar c = true.
Proof.
  unfold utf8_encode_char.
  destruct (N.ltb_spec c 0x80); [intros _; apply is_scalar_spec; lia|].
  destruct (N.ltb_spec c 0x800); [intros _; apply is_scalar_spec; lia|].
  destruct (is_scalar c); [reflexivity|discriminate].
Qed.

Lemma scalar_encoded (c : char) :
  is_scalar c = true -> exists enc, utf8_encode_char c = Some enc.
Proof.
  intros Hs. unfold utf8_encode_char. rewrite Hs. cbn [negb].
  destruct (c <? 0x80); [eauto|]. destruct (c <? 0x800); [eauto|].
  destruct (c <? 0x10000); eauto.
Qed.

Lemma Replaced_scalar (s : bytes) (t : str) :
  Replaced s t -> Forall (fun c => is_scalar c = true) t.
Proof.
  induction 1 as [|c enc rest out He _ IH|bad rest out _ _ _ IH];
    constructor; auto.
  now apply encoded_scalar with enc.
Qed.

Lemma universal_newlines_In_bounded (n : nat) :
  forall t : str, (List.length t <= n)%nat ->
  forall x, In x (universal_newlines t) -> x = 10 \/ In x t.
Proof.
  induction n as [|n IH]; intros t Hlen x Hin.
  { destruct t; [destruct Hin|]. cbn in Hlen. lia. }
  destruct t as [|c rest]; [destruct Hin|].
  cbn [List.length] in Hlen. cbn [universal_newlines] in Hin.
  destruct (c =? 13).
  - destruct Hin as [<-|Hin]; [now left|].
    destruct rest as [|c' rest']; [destruct Hin|].
    cbn [List.length] in Hlen. destruct (c' =? 10).
    + apply IH in Hin; [|lia]. destruct Hin; [now left|].
      right. right. now right.
    + apply IH in Hin; [|cbn; lia]. destruct Hin; [now left|].
      right. now right.
  - destruct Hin as [<-|Hin]; [right; now left|].
    apply IH in Hin; [|lia]. destruct Hin; [now left|]. right. now right.
Qed.

Lemma universal_newlines_scalar (t : str) :
  Forall (fun c => is_scalar c = true) t ->
  Forall (fun c => is_scalar c = true) (universal_newlines t).
Proof.
  rewrite !Forall_forall. intros H x Hin.
  apply (universal_newlines_In_bounded (List.length t) t (le_n _)) in Hin.
  destruct Hin as [->|Hin]; [reflexivity|auto].
Qed.

Lemma utf8_encode_scalar (t : str) :
  Forall (fun c => is_scalar c = true) t -> exists out, utf8_encode t = Some out.
Proof.
  induction 1 as [|c t Hc _ [out IH]]; cbn [utf8_encode]; [eauto|].
  destruct (scalar_encoded c Hc) as [enc ->]. rewrite IH. eauto.
Qed.

Lemma universal_newlines_id (t : str) :
  ~ In 13 t -> universal_newlines t = t.
Proof.
  induction t as [|c t IH]; intros Hnot; [reflexivity|].
  cbn [universal_newlines]. destruct (N.eqb_spec c 13) as [->|_].
  - destruct Hnot. now left.
  - rewrite IH; [reflexivity|]. intros Hin. apply Hnot. now right.
Qed.

(** What can be written to the output file. *)
Lemma encodable_spec (s : str) : encodable s = forallb is_scalar s.
Proof.
  unfold encodable. induction s as [|c s IH]; [reflexivity|].
  cbn [utf8_encode forallb]. destruct (utf8_encode_char c) as [enc|] eqn:Ec.
  - rewrite (encoded_scalar c enc Ec). cbn [andb].
    destruct (utf8_encode s); exact IH.
  - destruct (is_scalar c) eqn:Hs; [|reflexivity].
    destruct (scalar_encoded c Hs) as [enc E]. congruence.
Qed.

Lemma encodable_app (a b : str) :
  encodable (a ++ b) = encodable a && encodable b.
Proof. rewrite !encodable_spec. apply forallb_app. Qed.

Lemma encodable_heading (rel : Path) :
  encodable (heading rel) = encodable (path_str rel).
Proof.
  unfold heading. rewrite !encodable_app.
  change (encodable nl) with true. change (encodable (lit "---")) with true.
  change (encodable (lit "# ")) with true.
  cbn [andb]. now rewrite !andb_true_r.
Qed.

(** What was read from a file can always be written. *)
Lemma read_text_encodable (data : bytes) : encodable (read_text data) = true.
Proof.
  unfold encodable, read_text.
  destruct (utf8_encode_scalar (universal_newlines (utf8_decode data)))
    as [out ->]; [|reflexivity].
  apply universal_newlines_scalar.
  apply Replaced_scalar with data, utf8_decode_Replaced.
Qed.

Lemma encodable_join (parts : list str) :
  Forall (fun s => encodable s = true) parts ->
  encodable (join (lit "/") parts) = true.
Proof.
  induction 1 as [|p parts Hp Hparts IH]; [reflexivity|].
  cbn [join]. destruct parts as [|q parts]; [exact Hp|].
  rewrite !encodable_app, Hp, IH. reflexivity.
Qed.

Lemma encodable_path_str (p : Path) :
  Forall (fun s => encodable s = true) p -> encodable (path_str p) = true.
Proof.
  intros H. unfold path_str. destruct p as [|anchor rest]; [reflexivity|].
  destruct (str_eqb anchor (lit "/")); [|now apply encodable_join].
  inversion H; subst. rewrite encodable_app.
  apply andb_true_iff. split; [assumption|now apply encodable_join].
Qed.

(** ** The shape of the text read *)

Lemma universal_newlines_shape_bounded (n : nat) :
  forall t : str, (List.length t <= n)%nat ->
  ~ In 13 (universal_newlines t)
  /\ (List.length (universal_newlines t) <= List.length t)%nat.
Proof.
  induction n as [|n IH]; intros t Hlen.
  { destruct t; [split; [intros []|reflexivity]|]. cbn in Hlen. lia. }
  destruct t as [|c rest]; [split; [intros []|reflexivity]|].
  cbn [List.length] in Hlen. cbn [universal_newlines].
  destruct (N.eqb_spec c 13) as [->|Hc].
  - destruct rest as [|c' rest'].
    + split; [intros [H|[]]; discriminate|cbn; lia].
    + cbn [List.length] in Hlen. destruct (c' =? 10).
      * destruct (IH rest') as [H1 H2]; [lia|]. split.
        -- intros [H|H]; [discriminate|auto].
        -- cbn [List.length]. lia.
      * destruct (IH (c' :: rest')) as [H1 H2]; [cbn; lia|]. split.
        -- intros [H|H]; [discriminate|auto].
        -- cbn [List.length] in *. lia.
  - destruct (IH rest) as [H1 H2]; [lia|]. split.
    + intros [H|H]; [congruence|auto].
    + cbn [List.length]. lia.
Qed.

Lemma encoded_not_empty (c : char) (enc : bytes) :
  utf8_encode_char c = Some enc -> enc <> [].
Proof.
  unfold utf8_encode_char. destruct (c <? 0x80); [congruence|].
  destruct (c <? 0x800); [congruence|].
  destruct (negb (is_scalar c)); [discriminate|].
  destruct (c <? 0x10000); congruence.
Qed.

Lemma Replaced_length (s : bytes) (t : str) :
  Replaced s t -> (List.length t <= List.length s)%nat.
Proof.
  induction 1 as [|c enc rest out He _ IH|bad rest out Hbad _ _ IH].
  - reflexivity.
  - apply encoded_not_empty in He. destruct enc; [congruence|].
    cbn [app List.length]. rewrite length_app. lia.
  - destruct bad; [congruence|].
    cbn [app List.length]. rewrite length_app. lia.
Qed.

(** ** The tree and the walk *)

Lemma node_induction (P : node -> Prop) :
  (forall c, P (File c)) ->
  P (Dir None) ->
  (forall msg, P (Denied msg)) ->
  (forall es, Forall (fun e => P (snd e)) es -> P (Dir (Some es))) ->
  forall n, P n.
Proof.
  intros HF HN HX HD. fix IH 1.
  intros [c|[es|]|msg]; [apply HF| |apply HN|apply HX].
  apply HD. induction es as [|[name child] es IHes]; constructor.
  - apply IH.
  - exact IHes.
Qed.

Lemma lookup_cons (es : list (str * node)) (name : str) (rel : Path) :
  lookup (Dir (Some es)) (name :: rel) =
  match find (fun e => str_eqb (fst e) name) es with
  | Some e => lookup (snd e) rel
  | None => None
  end.
Proof.
  induction es as [|[name' child] es IH]; [reflexivity|].
  cbn [find fst snd]. destruct (str_eqb name' name) eqn:E.
  - simpl. now rewrite E.
  - rewrite <- IH. simpl. now rewrite E.
Qed.

Lemma lookup_nil (n : node) : lookup n [] = Some n.
Proof. destruct n; reflexivity. Qed.

Lemma unique_names_Dir (es : list (str * node)) :
  unique_names (Dir (Some es)) = true ->
  NoDup (map fst es) /\ Forall (fun e => unique_names (snd e) = true) es.
Proof.
  induction es as [|[name child] es IH]; intros H.
  - split; constructor.
  - cbn in H. apply andb_prop in H as [H H3]. apply andb_prop in H as [H1 H2].
    destruct (IH H3) as [IH1 IH2]. split.
    + cbn. constructor; [|exact IH1].
      intros Hin. apply in_map_iff in Hin as [e [He Hin]].
      apply negb_true_iff in H1.
      assert (existsb (fun e0 => str_eqb (fst e0) name) es = true);
        [|congruence].
      apply existsb_exists. exists e. split; [exact Hin|].
      now apply str_eqb_eq.
    + constructor; assumption.
Qed.

Lemma flat_map_map {A B C : Type} (g : A -> B) (f : B -> list C) (l : list A) :
  flat_map f (map g l) = flat_map (fun x => f (g x)) l.
Proof. induction l as [|a l IH]; simpl; congruence. Qed.

(** The two nested loops over the walk visit the entries of
    [rel_entries], each under its directory. *)
Lemma walk_flat_map {B : Type} (f : Path -> str -> list B) (n : node) :
  forall top : Path,
  flat_map (fun t => flat_map (f (fst (fst t))) (snd t)) (os_walk top n) =
  flat_map (fun df => f (top ++ fst df) (snd df)) (rel_entries n).
Proof.
  induction n as [c| |msg|es IH] using node_induction; intros top;
    try reflexivity.
  cbn [os_walk rel_entries flat_map fst snd].
  rewrite flat_map_app. f_equal.
  - rewrite !flat_map_map. apply flat_map_ext. intros e.
    cbn [fst snd]. now rewrite app_nil_r.
  - induction IH as [|e es He _ IHes]; [reflexivity|].
    cbn [flat_map]. rewrite !flat_map_app, IHes. f_equal.
    destruct (node_is_dir (snd e)); [|reflexivity].
    rewrite He, flat_map_map. apply flat_map_ext. intros df.
    cbn [fst snd]. unfold path_join. now rewrite <- app_assoc.
Qed.

Lemma strip_prefix_app (base rel : Path) :
  strip_prefix (base ++ rel) base = Some rel.
Proof.
  induction base as [|b base IH]; simpl.
  - now destruct rel.
  - now rewrite str_eqb_refl.
Qed.

Lemma relative_to_app (base rel : Path) :
  relative_to (base ++ rel) base = Ok rel.
Proof. unfold relative_to. now rewrite strip_prefix_app. Qed.

Lemma resolve_app (n : node) (base rel : Path) :
  resolve (Some n) base (base ++ rel) = lookup n rel.
Proof. unfold resolve. now rewrite strip_prefix_app. Qed.

Lemma map_flat_map {A B C : Type} (g : B -> C) (f : A -> list B) (l : list A) :
  map g (flat_map f l) = flat_map (fun x => map g (f x)) l.
Proof.
  induction l as [|a l IH]; simpl; [reflexivity|].
  now rewrite map_app, IH.
Qed.

Lemma strip_prefix_Some (base p rel : Path) :
  strip_prefix p base = Some rel -> p = base ++ rel.
Proof.
  revert p. induction base as [|b base IH]; intros p.
  - destruct p; cbn; congruence.
  - destruct p as [|c p]; cbn [strip_prefix app]; [discriminate|].
    destruct (str_eqb b c) eqn:E; [|discriminate].
    apply str_eqb_eq in E. subst c. intros H. f_equal. now apply IH.
Qed.

Lemma is_dir_app (n : node) (base rel : Path) :
  is_dir (Some n) base (base ++ rel) =
  match lookup n rel with
  | Some (Dir _) => Ok true
  | Some (Denied msg) => Raise msg
  | _ => Ok false
  end.
Proof.
  unfold is_dir. rewrite resolve_app.
  destruct (lookup n rel) as [[c|l|msg]|]; reflexivity.
Qed.

Lemma is_text_file_app (n : node) (base rel : Path) :
  is_text_file (Some n) base (base ++ rel) =
  match lookup n rel with
  | Some (File (Ok data)) => text_window data
  | _ => false
  end.
Proof.
  unfold is_text_file, open_rb. rewrite resolve_app.
  destruct (lookup n rel) as [[[data|msg]|l|msg]|]; reflexivity.
Qed.

(** ** The first loop *)

Lemma name_excluded (name : str) :
  name_allowed name = false <->
  startswith name (lit "llmify") || endswith name (lit ".md.llm") = true.
Proof.
  unfold name_allowed.
  destruct (startswith name (lit "llmify")), (endswith name (lit ".md.llm"));
    cbn; split; congruence.
Qed.

Lemma name_not_excluded (name : str) :
  name_allowed name = true <->
  startswith name (lit "llmify") || endswith name (lit ".md.llm") = false.
Proof.
  unfold name_allowed.
  destruct (startswith name (lit "llmify")), (endswith name (lit ".md.llm"));
    cbn; split; congruence.
Qed.

(** The first loop either raises or appends the files it keeps, in
    the order of the walk. *)
Lemma first_loop_cases (fs : option node) (base_dir : Path) (s : list Path) :
  (exists s' e, first_loop fs base_dir s = (s', Raise e))
  \/ first_loop fs base_dir s = (s ++ map (app base_dir) (kept fs), Ok tt).
Proof.
  destruct fs as [n|]; [|right; cbn; now rewrite app_nil_r].
  unfold first_loop, kept, walk.
  set (F := fun (root : Path) (file : str) =>
              if startswith file (lit "llmify") || endswith file (lit ".md.llm")
              then []
              else
                let file_path := path_join root file in
                match is_dir (Some n) base_dir file_path with
                | Ok d =>
                    if d || negb (is_text_file (Some n) base_dir file_path)
                    then []
                    else [file_path]
                | Raise _ => []
                end).
  match goal with
  | |- _ \/ _ = (s ++ map (app base_dir) ?l, Ok tt) =>
      assert (E : map (app base_dir) l =
                  flat_map (fun t => flat_map (F (fst (fst t))) (snd t))
                           (os_walk base_dir n))
  end.
  { rewrite walk_flat_map, map_flat_map.
    apply flat_map_ext. intros [d file]. unfold F. cbn [fst snd].
    destruct (startswith file (lit "llmify") || endswith file (lit ".md.llm"));
      [reflexivity|].
    unfold path_join. cbv zeta. rewrite <- app_assoc.
    rewrite is_dir_app, is_text_file_app.
    destruct (lookup n (d ++ [file])) as [[[data|msg]|l|msg]|];
      try reflexivity.
    cbn [orb negb]. destruct (text_window data); reflexivity. }
  rewrite E. apply for_each_completes. intros [[root dirs] files] s0.
  cbn [fst snd]. apply for_each_completes. intros file s1. unfold F.
  destruct (startswith file (lit "llmify") || endswith file (lit ".md.llm")).
  { right. unfold ret. now rewrite app_nil_r. }
  cbv zeta. unfold bind, lift.
  destruct (is_dir (Some n) base_dir (path_join root file)) as [d|e];
    [|left; eauto].
  right.
  destruct (d || negb (is_text_file (Some n) base_dir (path_join root file))).
  - unfold ret. now rewrite app_nil_r.
  - reflexivity.
Qed.

(** The first loop raises exactly when the walk lists, among the
    files, a name that passes the name rules and on whose path [stat]
    raises. *)
Lemma first_loop_raises (n : node) (base_dir : Path) (s : list Path) :
  (exists s' e, first_loop (Some n) base_dir s = (s', Raise e))
  <-> (exists d file msg,
         In (d, file) (rel_entries n)
         /\ name_allowed file = true
         /\ lookup n (d ++ [file]) = Some (Denied msg)).
Proof.
  unfold first_loop, walk.
  set (bad := fun (root : Path) (file : str) =>
                startswith file (lit "llmify") || endswith file (lit ".md.llm")
                = false
                /\ exists msg,
                     is_dir (Some n) base_dir (path_join root file) = Raise msg).
  set (F := fun (root : Path) (file : str) =>
              if startswith file (lit "llmify") || endswith file (lit ".md.llm")
              then []
              else
                let file_path := path_join root file in
                match is_dir (Some n) base_dir file_path with
                | Ok d =>
                    if d || negb (is_text_file (Some n) base_dir file_path)
                    then []
                    else [file_path]
                | Raise _ => []
                end).
  assert (Hfile : forall root file s0,
             (bad root file
              /\ exists s' e,
                   (if startswith file (lit "llmify")
                       || endswith file (lit ".md.llm")
                    then ret tt
                    else
                      let file_path := path_join root file in
                      d <- lift (is_dir (Some n) base_dir file_path) ;;
                      if d || negb (is_text_file (Some n) base_dir file_path)
                      then ret tt
                      else append file_path) s0 = (s', Raise e))
             \/ (~ bad root file
                 /\ (if startswith file (lit "llmify")
                        || endswith file (lit ".md.llm")
                     then ret tt
                     else
                       let file_path := path_join root file in
                       d <- lift (is_dir (Some n) base_dir file_path) ;;
                       if d || negb (is_text_file (Some n) base_dir file_path)
                       then ret tt
                       else append file_path) s0 = (s0 ++ F root file, Ok tt))).
  { intros root file s0. unfold bad, F.
    destruct (startswith file (lit "llmify") || endswith file (lit ".md.llm")).
    { right. split; [intros [H _]; discriminate|].
      unfold ret. now rewrite app_nil_r. }
    cbv zeta. unfold bind, lift.
    destruct (is_dir (Some n) base_dir (path_join root file)) as [d|e].
    - right. split; [intros [_ [msg H]]; discriminate|].
      destruct (d || negb (is_text_file (Some n) base_dir (path_join root file))).
      + unfold ret. now rewrite app_nil_r.
      + reflexivity.
    - left. split; [split; eauto|eauto]. }
  rewrite (for_each_raises
             (fun t => flat_map (F (fst (fst t))) (snd t))
             (fun t => exists file, In file (snd t) /\ bad (fst (fst t)) file)).
  - transitivity
      (exists rf, In rf (flat_map
                           (fun t => flat_map (fun file => [(fst (fst t), file)])
                                              (snd t))
                           (os_walk base_dir n))
                  /\ bad (fst rf) (snd rf)).
    { split.
      - intros [t [Ht [file [Hf Hb]]]]. exists (fst (fst t), file).
        split; [|exact Hb]. apply in_flat_map. exists t. split; [exact Ht|].
        apply in_flat_map. exists file. split; [exact Hf|now left].
      - intros [rf [Hin Hb]]. apply in_flat_map in Hin as [t [Ht Hin]].
        apply in_flat_map in Hin as [file [Hf [<-|[]]]].
        exists t. split; [exact Ht|]. exists file. auto. }
    rewrite (walk_flat_map (fun root file => [(root, file)])). split.
    + intros [rf [Hin [Hn [msg Hd]]]].
      apply in_flat_map in Hin as [[d file] [Hin [<-|[]]]].
      cbn [fst snd] in *. unfold path_join in Hd.
      rewrite <- app_assoc, is_dir_app in Hd.
      exists d, file. apply name_not_excluded in Hn.
      destruct (lookup n (d ++ [file])) as [[c|l|msg']|]; try discriminate.
      exists msg'. auto.
    + intros [d [file [msg [Hin [Hn Hl]]]]]. exists (base_dir ++ d, file).
      split.
      * apply in_flat_map. exists (d, file). split; [exact Hin|now left].
      * cbn [fst snd]. split; [now apply name_not_excluded|].
        exists msg. unfold path_join. now rewrite <- app_assoc, is_dir_app, Hl.
  - intros [[root dirs] files] s0. cbn [fst snd].
    pose proof (for_each_raises (F root) (bad root) _ files (Hfile root) s0)
      as Hiff.
    destruct (for_each_completes (F root) _ files
                (fun file s1 =>
                   match Hfile root file s1 with
                   | or_introl (conj _ H) => or_introl H
                   | or_intror (conj _ H) => or_intror H
                   end) s0) as [Hr|Hok].
    + left. split; [now apply Hiff|exact Hr].
    + right. split; [|exact Hok].
      intros Hb. apply Hiff in Hb as [s' [e E]].
      pose proof (eq_trans (eq_sym Hok) E) as X. discriminate X.
Qed.

(** When the first loop gets to its end, [all_files] holds the files
    kept, on their paths below [base_dir]. *)
Lemma all_files_kept (fs : option node) (base_dir : Path) :
  walk_completes fs base_dir ->
  all_files fs base_dir = map (app base_dir) (kept fs).
Proof.
  unfold walk_completes, all_files. intros Hw.
  destruct (first_loop_cases fs base_dir []) as [[s' [e E]]|E];
    rewrite E in *; [discriminate|reflexivity].
Qed.

Lemma first_loop_completes (fs : option node) (base_dir : Path) :
  walk_completes fs base_dir ->
  first_loop fs base_dir [] = (map (app base_dir) (kept fs), Ok tt).
Proof.
  unfold walk_completes. intros Hw.
  destruct (first_loop_cases fs base_dir []) as [[s' [e E]]|E];
    rewrite E in *; [discriminate|reflexivity].
Qed.

(** Whether or not the loop gets to its end, what it has put into
    [all_files] has passed the name rules and the probe. *)
Lemma all_files_inv (fs : option node) (base_dir p : Path) :
  In p (all_files fs base_dir) ->
  exists root file,
    p = path_join root file
    /\ startswith file (lit "llmify") || endswith file (lit ".md.llm") = false
    /\ is_text_file fs base_dir p = true.
Proof.
  unfold all_files, first_loop.
  set (Q := fun p : Path =>
              exists root file,
                p = path_join root file
                /\ startswith file (lit "llmify") || endswith file (lit ".md.llm")
                   = false
                /\ is_text_file fs base_dir p = true).
  intros Hin.
  match type of Hin with
  | In p ?l => assert (H : Forall Q l)
  end.
  { apply for_each_invariant with (P := Forall Q); [|constructor].
    intros [[root dirs] files] s Hs.
    apply for_each_invariant with (P := Forall Q); [|exact Hs].
    intros file s0 Hs0.
    destruct (startswith file (lit "llmify") || endswith file (lit ".md.llm"))
      eqn:En; [exact Hs0|].
    cbv zeta. unfold bind, lift.
    destruct (is_dir fs base_dir (path_join root file)) as [d|e];
      [|exact Hs0].
    destruct d; cbn [orb]; [exact Hs0|].
    destruct (is_text_file fs base_dir (path_join root file)) eqn:Et;
      cbn [negb]; [|exact Hs0].
    unfold append. cbn [fst]. apply Forall_app. split; [exact Hs0|].
    constructor; [|constructor]. exists root, file. auto. }
  rewrite Forall_forall in H. exact (H p Hin).
Qed.

(** ** Entries and eligible files *)

Lemma in_rel_entries_Dir (es : list (str * node)) (d : Path) (file : str) :
  In (d, file) (rel_entries (Dir (Some es))) <->
  (d = [] /\ exists e, In e es /\ node_is_dir (snd e) = false /\ fst e = file)
  \/ (exists e d', In e es /\ node_is_dir (snd e) = true /\ d = fst e :: d'
                   /\ In (d', file) (rel_entries (snd e))).
Proof.
  cbn [rel_entries]. rewrite in_app_iff, in_map_iff, in_flat_map.
  split.
  - intros [[e [He Hin]]|[e [Hin He]]].
    + left. apply filter_In in Hin as [Hin Hd].
      apply negb_true_iff in Hd. injection He as <- <-. eauto.
    + right. destruct (node_is_dir (snd e)) eqn:Hd; [|destruct He].
      apply in_map_iff in He as [[d' f'] [E He]]. cbn [fst snd] in E.
      injection E as <- <-. exists e, d'. auto.
  - intros [[-> [e [Hin [Hd <-]]]]|[e [d' [Hin [Hd [-> He]]]]]].
    + left. exists e. split; [reflexivity|].
      apply filter_In. split; [exact Hin|]. now rewrite Hd.
    + right. exists e. split; [exact Hin|]. rewrite Hd.
      apply in_map_iff. now exists (d', file).
Qed.


(** Every entry that is not a directory and that a path leads to is
    listed by the walk. *)
Lemma lookup_rel_entries (n : node) :
  forall (d : Path) (file : str) (c : io_result bytes),
  lookup n (d ++ [file]) = Some (File c) -> In (d, file) (rel_entries n).
Proof.
  induction n as [c0| |msg|es IH] using node_induction; intros d file c H.
  - destruct d; discriminate.
  - destruct d; discriminate.
  - destruct d; discriminate.
  - rewrite Forall_forall in IH. apply in_rel_entries_Dir.
    destruct d as [|name d']; cbn [app] in H; rewrite lookup_cons in H.
    + left. split; [reflexivity|].
      destruct (find _ es) as [e|] eqn:Hf; [|discriminate].
      apply find_some in Hf as [Hin He]. apply str_eqb_eq in He.
      rewrite lookup_nil in H. injection H as H.
      exists e. rewrite H. auto.
    + right.
      destruct (find _ es) as [e|] eqn:Hf; [|discriminate].
      apply find_some in Hf as [Hin He]. apply str_eqb_eq in He.
      exists e, d'. split; [exact Hin|]. rewrite He.
      destruct (snd e) as [c'|l|msg] eqn:Hs.
      * destruct d'; discriminate.
      * repeat split. rewrite <- Hs in *. eauto.
      * destruct d'; discriminate.
Qed.

Lemma rel_entries_NoDup (n : node) :
  unique_names n = true -> NoDup (rel_entries n).
Proof.
  induction n as [c| |msg|es IH] using node_induction; intros Hu;
    try constructor.
  apply unique_names_Dir in Hu as [Hnd Hch].
  cbn [rel_entries]. apply NoDup_app.
  - clear IH Hch. induction es as [|e es IHes]; [constructor|].
    cbn in Hnd. inversion Hnd as [|? ? Hnot Hnd']; subst.
    cbn [filter]. destruct (negb (node_is_dir (snd e))); [|auto].
    cbn [map]. constructor; [|auto].
    intros Hin. apply in_map_iff in Hin as [e' [E Hin]].
    apply filter_In in Hin as [Hin _]. injection E as E.
    apply Hnot. rewrite <- E. now apply in_map.
  - induction es as [|e es IHes]; [constructor|].
    cbn in Hnd. inversion Hnd as [|? ? Hnot Hnd']; subst.
    inversion IH as [|? ? IHe IH']; subst.
    inversion Hch as [|? ? Hue Hch']; subst.
    cbn [flat_map]. apply NoDup_app; [| auto |].
    + destruct (node_is_dir (snd e)); [|constructor].
      apply Finite.Injective_map_NoDup; [|auto].
      intros [d1 f1] [d2 f2] E. cbn [fst snd] in E. congruence.
    + intros x Hx Hx'. apply in_flat_map in Hx' as [e' [Hin' Hx']].
      destruct (node_is_dir (snd e)); [|destruct Hx].
      destruct (node_is_dir (snd e')); [|destruct Hx'].
      apply in_map_iff in Hx as [df [<- _]].
      apply in_map_iff in Hx' as [df' [E _]]. injection E as E _.
      apply Hnot. rewrite <- E. now apply in_map.
  - intros x Hx Hx'. apply in_map_iff in Hx as [e [<- _]].
    apply in_flat_map in Hx' as [e' [_ Hx']].
    destruct (node_is_dir (snd e')); [|destruct Hx'].
    apply in_map_iff in Hx' as [df [E _]]. discriminate.
Qed.

Lemma NoDup_flat_map_at_most_one {A B : Type} (g : A -> B) (h : A -> list B)
    (l : list A) :
  (forall x, h x = [] \/ h x = [g x]) ->
  (forall x y, g x = g y -> x = y) ->
  NoDup l -> NoDup (flat_map h l).
Proof.
  intros Hh Hg. induction 1 as [|a l Hnot Hnd IH]; cbn [flat_map];
    [constructor|].
  destruct (Hh a) as [->| ->]; [exact IH|].
  cbn [app]. constructor; [|exact IH].
  intros Hin. apply in_flat_map in Hin as [y [Hy Hin]].
  destruct (Hh y) as [E|E]; rewrite E in Hin; [destruct Hin|].
  destruct Hin as [Hin|[]].
  apply Hg in Hin. congruence.
Qed.

Lemma kept_NoDup (fs : option node) :
  well_formed fs = true -> NoDup (kept fs).
Proof.
  destruct fs as [n|]; [|constructor]. cbn [well_formed kept]. intros Hu.
  apply NoDup_flat_map_at_most_one with (g := fun df => fst df ++ [snd df]).
  - intros df. destruct (_ || _); [now left|].
    destruct (lookup n _) as [[[data|msg]|l|msg]|]; auto.
    destruct (text_window data); auto.
  - intros [d1 f1] [d2 f2] E. cbn [fst snd] in E.
    apply app_inj_tail in E as [-> ->]. reflexivity.
  - now apply rel_entries_NoDup.
Qed.

(** The first loop keeps the eligible files, all of them. *)
Lemma kept_eligible (fs : option node) (rel : Path) :
  In rel (kept fs) <-> exists data, eligible fs rel = Some data.
Proof.
  destruct fs as [n|]; cbn [kept eligible].
  2: { split; [intros []|intros [data H]; discriminate]. }
  rewrite in_flat_map. split.
  - intros [[d file] [Hin H]]. cbn [fst snd] in H.
    destruct (startswith file (lit "llmify")) eqn:E1; [destruct H|].
    destruct (endswith file (lit ".md.llm")) eqn:E2; [destruct H|].
    cbn [orb] in H.
    destruct (lookup n (d ++ [file])) as [[[data|msg]|l|msg]|] eqn:El;
      try destruct H.
    destruct (text_window data) eqn:Et; [|destruct H].
    destruct H as [<-|[]]. exists data.
    rewrite rev_unit, El. unfold name_allowed. now rewrite E1, E2, Et.
  - intros [data H]. destruct (rev rel) as [|file r] eqn:Er; [discriminate|].
    assert (Hrel : rel = rev r ++ [file]).
    { rewrite <- (rev_involutive rel), Er. reflexivity. }
    destruct (lookup n rel) as [[[data'|msg]|l|msg]|] eqn:El;
      try discriminate.
    unfold name_allowed in H.
    destruct (startswith file (lit "llmify")) eqn:E1; [discriminate|].
    destruct (endswith file (lit ".md.llm")) eqn:E2; [discriminate|].
    destruct (text_window data') eqn:Et; [|discriminate].
    exists (rev r, file). cbn [fst snd]. split.
    + apply lookup_rel_entries with (c := Ok data'). now rewrite <- Hrel.
    + rewrite E1, E2, <- Hrel, El, Et. now left.
Qed.

(** In a tree that stays as it is, every kept file is read back. *)
Lemma open_rb_eligible (n : node) (base_dir rel : Path) (data : bytes) :
  eligible (Some n) rel = Some data ->
  open_rb (Some n) base_dir (base_dir ++ rel) = Ok data.
Proof.
  unfold eligible, open_rb. rewrite resolve_app.
  destruct (rev rel); [discriminate|].
  destruct (lookup n rel) as [[[data'|msg]|es|msg]|]; try discriminate.
  destruct (_ && _); congruence.
Qed.

(** The names on a path of the tree. *)
Lemma lookup_names_encodable (n : node) :
  forall (rel : Path) (x : node),
  names_encodable n = true -> lookup n rel = Some x ->
  Forall (fun s => encodable s = true) rel.
Proof.
  induction n as [c| |msg|es IH] using node_induction; intros rel x Hn Hl;
    destruct rel as [|name rel]; try constructor; try discriminate.
  - rewrite lookup_cons in Hl.
    destruct (find _ es) as [e|] eqn:Hf; [|discriminate].
    apply find_some in Hf as [Hin He]. apply str_eqb_eq in He.
    change (forallb (fun e => encodable (fst e) && names_encodable (snd e)) es
            = true) in Hn.
    rewrite forallb_forall in Hn. specialize (Hn e Hin).
    apply andb_prop in Hn as [H1 H2]. now rewrite <- He.
  - rewrite lookup_cons in Hl.
    destruct (find _ es) as [e|] eqn:Hf; [|discriminate].
    apply find_some in Hf as [Hin He].
    change (forallb (fun e => encodable (fst e) && names_encodable (snd e)) es
            = true) in Hn.
    rewrite forallb_forall in Hn. specialize (Hn e Hin).
    apply andb_prop in Hn as [H1 H2].
    rewrite Forall_forall in IH. exact (IH e Hin rel x H2 Hl).
Qed.

(** ** The second loop *)

(** One entry of the second loop: its heading cannot be encoded, or
    reading it raises, or it is read and written. *)
Lemma process_file_app (reader : Path -> io_result bytes) (base_dir rel : Path)
    (w : world) :
  process_file reader base_dir (base_dir ++ rel) w =
  if encodable (heading rel)
  then
    match reader (base_dir ++ rel) with
    | Ok data =>
        (printed (wrote (wrote w (heading rel)) (read_text data))
                 (lit "Processed: " ++ path_str rel),
         Ok tt)
    | Raise e =>
        (reported (wrote w (heading rel)) (error_line (base_dir ++ rel) e),
         Ok tt)
    end
  else
    (reported w (error_line (base_dir ++ rel) (encode_error (heading rel))),
     Ok tt).
Proof.
  unfold process_file, try_except, bind, lift, write, print, print_stderr.
  rewrite relative_to_app.
  destruct (encodable (heading rel)); [|reflexivity].
  destruct (reader (base_dir ++ rel)) as [data|e]; [|reflexivity].
  now rewrite read_text_encodable.
Qed.

Lemma process_file_reader (r1 r2 : Path -> io_result bytes)
    (base_dir file_path : Path) (w : world) :
  r1 file_path = r2 file_path ->
  process_file r1 base_dir file_path w = process_file r2 base_dir file_path w.
Proof.
  intros E. unfold process_file, try_except, bind, lift. now rewrite E.
Qed.

Lemma process_files (reader : Path -> io_result bytes) (base_dir : Path)
    (rels : list Path) :
  forall w : world,
  for_each (process_file reader base_dir) (map (app base_dir) rels) w =
  ({| output_file := output_file w ++ writes reader base_dir rels;
      stdout := stdout w ++ progress_lines reader base_dir rels;
      stderr := stderr w ++ error_lines reader base_dir rels |},
   Ok tt).
Proof.
  induction rels as [|rel rels IH]; intros w.
  - cbn. rewrite !app_nil_r. now destruct w.
  - cbn [map for_each]. unfold bind. rewrite process_file_app.
    unfold writes, progress_lines, error_lines. cbn [flat_map].
    destruct (encodable (heading rel));
      [destruct (reader (base_dir ++ rel)) as [data|e]|];
      rewrite IH; cbn; rewrite <- ?app_assoc, ?app_nil_r; reflexivity.
Qed.

(** [process_directory] when the first loop gets to its end: what the
    kept files leave, in the order of the sort, whatever reading them
    gives. *)
Lemma process_directory_eq (fs : option node) (reader : Path -> io_result bytes)
    (base_dir : Path) (w : world) :
  walk_completes fs base_dir ->
  process_directory fs reader base_dir w =
  ({| output_file :=
        output_file w ++ writes reader base_dir (sort (kept fs));
      stdout := stdout w ++ progress_lines reader base_dir (sort (kept fs));
      stderr := stderr w ++ error_lines reader base_dir (sort (kept fs)) |},
   Ok tt).
Proof.
  intros Hw. unfold process_directory.
  rewrite (first_loop_completes fs base_dir Hw).
  now rewrite sort_prefix, process_files.
Qed.

(** [process_directory] when [is_dir] raises: the exception is let
    through, and nothing was written or printed. *)
Lemma process_directory_aborted (fs : option node)
    (reader : Path -> io_result bytes) (base_dir : Path) (w : world) (e : str) :
  snd (first_loop fs base_dir []) = Raise e ->
  process_directory fs reader base_dir w = (w, Raise e).
Proof.
  intros Hw. unfold process_directory.
  destruct (first_loop fs base_dir []) as [l [u|e']]; [discriminate|].
  cbn [snd] in Hw. congruence.
Qed.

(** Whether or not it raises, [process_directory] only appends. *)
Lemma process_directory_cases (fs : option node)
    (reader : Path -> io_result bytes) (base_dir : Path) (w : world) :
  (exists e, snd (first_loop fs base_dir []) = Raise e
             /\ process_directory fs reader base_dir w = (w, Raise e))
  \/ (walk_completes fs base_dir
      /\ process_directory fs reader base_dir w =
         ({| output_file :=
               output_file w ++ writes reader base_dir (sort (kept fs));
             stdout :=
               stdout w ++ progress_lines reader base_dir (sort (kept fs));
             stderr :=
               stderr w ++ error_lines reader base_dir (sort (kept fs)) |},
          Ok tt)).
Proof.
  destruct (snd (first_loop fs base_dir [])) as [u|e] eqn:E.
  - right. destruct u.
    split; [exact E|]. now apply process_directory_eq.
  - left. exists e. split; [reflexivity|].
    now apply process_directory_aborted.
Qed.

(** [main], when the output file can be opened. *)
Lemma main_eq (script_dir : Path) (fs : option node)
    (reader : Path -> io_result bytes) (open_w : Path -> option str) :
  open_w (path_join script_dir (lit "microagents.md.llm")) = None ->
  main script_dir fs reader open_w =
  match
    process_directory fs reader script_dir
      {| output_file := banner;
         stdout := [lit "Starting to process files in " ++ path_str script_dir;
                    lit "Output will be written to "
                    ++ path_str (path_join script_dir (lit "microagents.md.llm"))];
         stderr := [] |}
  with
  | (w, Ok _) =>
      (printed w (lit "Done! Output written to "
                  ++ path_str (path_join script_dir (lit "microagents.md.llm"))),
       None)
  | (w, Raise e) => (w, Some e)
  end.
Proof.
  intros Hopen. unfold main. cbv zeta. rewrite Hopen.
  unfold bind at 1 2 3 4. cbn [print printed lift for_each banner].
  unfold bind at 1 2. unfold write at 1 2.
  change (encodable (lit "# OpenHands Microagents Documentation" ++ nl ++ nl))
    with true.
  change (encodable
            (lit "This file contains the concatenated contents of all files in the .openhands/microagents directory."
             ++ nl))
    with true.
  cbn [wrote ret output_file stdout stderr app]. unfold bind, print.
  destruct (process_directory fs reader script_dir _) as [w [u|e]];
    reflexivity.
Qed.

(** [main], when the output file cannot be opened. *)
Lemma main_not_opened (script_dir : Path) (fs : option node)
    (reader : Path -> io_result bytes) (open_w : Path -> option str) (e : str) :
  open_w (path_join script_dir (lit "microagents.md.llm")) = Some e ->
  main script_dir fs reader open_w =
  ({| output_file := [];
      stdout := [lit "Starting to process files in " ++ path_str script_dir;
                 lit "Output will be written to "
                 ++ path_str (path_join script_dir (lit "microagents.md.llm"))];
      stderr := [] |},
   Some e).
Proof. intros Hopen. unfold main. cbv zeta. now rewrite Hopen. Qed.

(** Where every heading can be encoded, the writes are the sections:
    a heading each, and the body of what was read. *)
Lemma writes_sections (reader : Path -> io_result bytes) (base_dir : Path)
    (rels : list Path) :
  Forall (fun rel => encodable (heading rel) = true) rels ->
  writes reader base_dir rels = sections (body_at reader base_dir) rels.
Proof.
  induction 1 as [|rel rels Hrel _ IH]; [reflexivity|].
  unfold writes, sections, body_at in *. cbn [flat_map].
  rewrite Hrel, IH. now destruct (reader (base_dir ++ rel)).
Qed.

Lemma null_in_window (data : bytes) :
  text_window data = false <-> In x00 (firstn 1024 data).
Proof.
  unfold text_window. rewrite negb_false_iff, existsb_exists. split.
  - intros [b [Hin Hb]]. apply Byte.byte_dec_bl in Hb. now subst b.
  - intros Hin. exists x00. split; [exact Hin|reflexivity].
Qed.

Lemma text_window_true (data : bytes) :
  text_window data = true <-> ~ In x00 (firstn 1024 data).
Proof.
  rewrite <- null_in_window. destruct (text_window data); split; congruence.
Qed.

(** What the sorted list of the second loop holds. *)
Lemma in_sorted_files (fs : option node) (base_dir file_path : Path) :
  walk_completes fs base_dir ->
  (In file_path (sort (all_files fs base_dir)) <->
   exists rel data, file_path = base_dir ++ rel /\ eligible fs rel = Some data).
Proof.
  intros Hw. rewrite sort_In, (all_files_kept fs base_dir Hw), in_map_iff.
  split.
  - intros [rel [<- Hin]]. apply kept_eligible in Hin as [data H]. eauto.
  - intros [rel [data [-> H]]]. exists rel. split; [reflexivity|].
    apply kept_eligible. eauto.
Qed.

Lemma eligible_inv (fs : option node) (rel : Path) (data : bytes) :
  eligible fs rel = Some data ->
  exists n d file,
    fs = Some n /\ rel = d ++ [file] /\ lookup n rel = Some (File (Ok data))
    /\ name_allowed file = true /\ text_window data = true.
Proof.
  unfold eligible. destruct fs as [n|]; [|discriminate].
  destruct (rev rel) as [|file r] eqn:Er; [discriminate|].
  destruct (lookup n rel) as [[[data'|msg]|es|msg]|] eqn:El;
    try discriminate.
  destruct (name_allowed file) eqn:En; [|discriminate].
  destruct (text_window data') eqn:Et; [|discriminate].
  intros H. injection H as <-. exists n, (rev r), file.
  split; [reflexivity|]. split; [|auto].
  rewrite <- (rev_involutive rel), Er. reflexivity.
Qed.

Lemma eligible_intro (n : node) (d : Path) (file : str) (data : bytes) :
  lookup n (d ++ [file]) = Some (File (Ok data)) ->
  name_allowed file = true -> text_window data = true ->
  eligible (Some n) (d ++ [file]) = Some data.
Proof.
  intros Hl Hn Ht. unfold eligible. now rewrite rev_unit, Hl, Hn, Ht.
Qed.

(** In a tree whose names can all be encoded, so can the heading of
    every eligible file. *)
Lemma eligible_encodable (fs : option node) (rel : Path) (data : bytes) :
  names_ok fs = true -> eligible fs rel = Some data ->
  encodable (heading rel) = true.
Proof.
  intros Hn He.
  destruct (eligible_inv _ _ _ He) as [n [d [file [-> [_ [Hl _]]]]]].
  rewrite encodable_heading. apply encodable_path_str.
  now apply lookup_names_encodable with n (File (Ok data)).
Qed.

Lemma kept_encodable (fs : option node) :
  names_ok fs = true ->
  Forall (fun rel => encodable (heading rel) = true) (sort (kept fs)).
Proof.
  intros Hn. apply Forall_forall. intros rel Hin.
  apply sort_In, kept_eligible in Hin as [data He].
  now apply eligible_encodable with fs data.
Qed.

(** An eligible file of a tree that stays as it is has its section in
    the output, when the first loop gets to its end and the heading
    can be encoded: the heading, then the text read from the file. *)
Lemma eligible_section (fs : option node) (base_dir rel : Path) (data : bytes)
    (w : world) :
  walk_completes fs base_dir ->
  encodable (heading rel) = true ->
  eligible fs rel = Some data ->
  exists before after,
    output_file (fst (process_directory fs (open_rb fs base_dir) base_dir w)) =
    before ++ [heading rel; read_text data] ++ after.
Proof.
  intros Hw Henc He. rewrite (process_directory_eq _ _ _ _ Hw).
  cbn [fst output_file].
  assert (Hin : In rel (sort (kept fs))).
  { apply sort_In, kept_eligible. eauto. }
  apply in_split in Hin as [l1 [l2 E]]. rewrite E.
  change (rel :: l2) with ([rel] ++ l2). unfold writes.
  rewrite !flat_map_app.
  exists (output_file w ++ writes (open_rb fs base_dir) base_dir l1),
         (writes (open_rb fs base_dir) base_dir l2).
  rewrite <- app_assoc. unfold writes. do 2 f_equal.
  cbn [flat_map]. rewrite Henc, app_nil_r.
  destruct (eligible_inv _ _ _ He) as [n [_ [_ [-> _]]]].
  now rewrite (open_rb_eligible n base_dir rel data He).
Qed.

Lemma sorted_files_text (fs : option node) (base_dir file_path : Path) :
  In file_path (sort (all_files fs base_dir)) ->
  is_text_file fs base_dir file_path = true.
Proof.
  intros Hin. apply sort_In, all_files_inv in Hin.
  destruct Hin as [root [file [_ [_ Ht]]]]. exact Ht.
Qed.

Lemma is_text_file_lookup (n : node) (base_dir rel : Path) (data : bytes) :
  lookup n rel = Some (File (Ok data)) ->
  ~ In x00 (firstn 1024 data) ->
  is_text_file (Some n) base_dir (base_dir ++ rel) = true.
Proof.
  intros Hl Hw. rewrite is_text_file_app, Hl. now apply text_window_true.
Qed.

Lemma sections_ext_in (f g : Path -> option str) (rels : list Path) :
  (forall rel, In rel rels -> f rel = g rel) ->
  sections f rels = sections g rels.
Proof.
  induction rels as [|rel rels IH]; intros H; [reflexivity|].
  unfold sections in *. cbn [flat_map].
  rewrite (H rel (or_introl eq_refl)), IH; [reflexivity|].
  intros r Hr. apply H. now right.
Qed.

(** The second loop only depends on what reading the listed files gives. *)
Lemma readers_agree (r1 r2 : Path -> io_result bytes) (base_dir : Path)
    (rels : list Path) :
  (forall rel, In rel rels -> r1 (base_dir ++ rel) = r2 (base_dir ++ rel)) ->
  writes r1 base_dir rels = writes r2 base_dir rels
  /\ progress_lines r1 base_dir rels = progress_lines r2 base_dir rels
  /\ error_lines r1 base_dir rels = error_lines r2 base_dir rels.
Proof.
  induction rels as [|rel rels IH]; intros H; [repeat split|].
  destruct IH as [IH1 [IH2 IH3]]; [intros r Hr; apply H; now right|].
  unfold writes, progress_lines, error_lines in *.
  cbn [flat_map]. rewrite (H rel (or_introl eq_refl)), IH1, IH2, IH3.
  repeat split.
Qed.

Lemma body_at_eligible (fs : option node) (base_dir rel : Path) :
  In rel (sort (kept fs)) ->
  body_at (open_rb fs base_dir) base_dir rel =
  option_map read_text (eligible fs rel).
Proof.
  intros Hin. apply sort_In, kept_eligible in Hin as [data He].
  destruct (eligible_inv _ _ _ He) as [n [_ [_ [-> _]]]].
  unfold body_at. now rewrite (open_rb_eligible n base_dir rel data He), He.
Qed.



Lemma find_app {A : Type} (f : A -> bool) (l1 l2 : list A) :
  find f (l1 ++ l2) =
  match find f l1 with
  | Some x => Some x
  | None => find f l2
  end.
Proof.
  induction l1 as [|a l1 IH]; cbn; [reflexivity|]. now destruct (f a).
Qed.


(** ** The document *)

Lemma document_wrote (w : world) (s : str) :
  document (wrote w s) = document w ++ s.
Proof.
  unfold document, wrote. cbn [output_file].
  rewrite concat_app. cbn. now rewrite app_nil_r.
Qed.

Lemma document_printed (w : world) (line : str) :
  document (printed w line) = document w.
Proof. reflexivity. Qed.

(** ** Counting what a run leaves *)

Lemma insert_length (a : Path) (l : list Path) :
  List.length (insert a l) = S (List.length l).
Proof.
  induction l as [|b l IH]; [reflexivity|].
  cbn [insert]. destruct (path_ltb b a); cbn [List.length]; congruence.
Qed.

Lemma sort_length (l : list Path) : List.length (sort l) = List.length l.
Proof.
  induction l as [|a l IH]; [reflexivity|].
  cbn [sort]. now rewrite insert_length, IH.
Qed.

Lemma sorted_kept_length (fs : option node) (base_dir : Path) :
  walk_completes fs base_dir ->
  List.length (sort (kept fs)) = List.length (all_files fs base_dir).
Proof.
  intros Hw. now rewrite sort_length, (all_files_kept fs base_dir Hw), length_map.
Qed.

(** Each entry of the second loop leaves one line on one of the two
    streams; an entry that is read leaves two writes, and no entry
    leaves a body without a heading. *)
Lemma second_loop_lengths (reader : Path -> io_result bytes) (base_dir : Path)
    (rels : list Path) :
  (List.length (progress_lines reader base_dir rels)
   + List.length (error_lines reader base_dir rels) = List.length rels)%nat
  /\ (2 * List.length (progress_lines reader base_dir rels)
      <= List.length (writes reader base_dir rels))%nat
  /\ (List.length (writes reader base_dir rels)
      <= List.length rels + List.length (progress_lines reader base_dir rels))%nat.
Proof.
  induction rels as [|rel rels [IH1 [IH2 IH3]]]; [repeat split; reflexivity|].
  unfold writes, progress_lines, error_lines in *.
  cbn [flat_map].
  destruct (encodable (heading rel)); [destruct (reader (base_dir ++ rel))|];
    cbn [app List.length]; rewrite ?length_app; cbn [List.length]; lia.
Qed.

(** Where every heading can be encoded, each entry leaves its heading. *)
Lemma second_loop_headings (reader : Path -> io_result bytes) (base_dir : Path)
    (rels : list Path) :
  Forall (fun rel => encodable (heading rel) = true) rels ->
  (List.length (writes reader base_dir rels) =
   List.length rels + List.length (progress_lines reader base_dir rels))%nat.
Proof.
  induction 1 as [|rel rels Hrel _ IH]; [reflexivity|].
  unfold writes, progress_lines in *. cbn [flat_map]. rewrite Hrel.
  destruct (reader (base_dir ++ rel));
    cbn [app List.length]; rewrite ?length_app; cbn [List.length]; lia.
Qed.

Lemma kept_nil_not_eligible (fs : option node) :
  kept fs = [] -> forall rel, eligible fs rel = None.
Proof.
  intros Hk rel. destruct (eligible fs rel) as [data|] eqn:He; [|reflexivity].
  assert (Hin : In rel (kept fs)) by (apply kept_eligible; eauto).
  rewrite Hk in Hin. destruct Hin.
Qed.

Lemma not_eligible_kept_nil (fs : option node) :
  (forall rel, eligible fs rel = None) -> kept fs = [].
Proof.
  intros H. destruct (kept fs) as [|rel l] eqn:Hk; [reflexivity|].
  assert (Hin : In rel (kept fs)) by (rewrite Hk; now left).
  apply kept_eligible in Hin as [data He]. rewrite H in He. discriminate.
Qed.

Lemma in_all_files (fs : option node) (base_dir p : Path) :
  walk_completes fs base_dir ->
  (In p (all_files fs base_dir) <->
   exists rel, p = base_dir ++ rel /\ In rel (sort (kept fs))).
Proof.
  intros Hw. rewrite (all_files_kept fs base_dir Hw), in_map_iff. split.
  - intros [rel [<- Hin]]. exists rel. now rewrite sort_In.
  - intros [rel [-> Hin]]. exists rel. now rewrite sort_In in Hin.
Qed.

Lemma error_lines_nil (reader : Path -> io_result bytes) (base_dir : Path)
    (rels : list Path) :
  Forall (fun rel => encodable (heading rel) = true) rels ->
  (forall rel, In rel rels -> exists data, reader (base_dir ++ rel) = Ok data) ->
  error_lines reader base_dir rels = [].
Proof.
  induction 1 as [|rel rels Hrel _ IH]; intros H; [reflexivity|].
  unfold error_lines in *. cbn [flat_map]. rewrite Hrel.
  destruct (H rel (or_introl eq_refl)) as [data ->]. cbn [app].
  apply IH. intros r Hr. apply H. now right.
Qed.

Lemma kept_read_back (fs : option node) (base_dir rel : Path) :
  In rel (sort (kept fs)) ->
  exists data, open_rb fs base_dir (base_dir ++ rel) = Ok data.
Proof.
  intros Hin. apply sort_In, kept_eligible in Hin as [data He].
  destruct (eligible_inv _ _ _ He) as [n [_ [_ [-> _]]]].
  exists data. now apply open_rb_eligible.
Qed.

(** ** Trees with the same eligible files *)

Lemma same_eligible_same_run (fs1 fs2 : option node) (base_dir : Path)
    (w : world) :
  well_formed fs1 = true -> well_formed fs2 = true ->
  walk_completes fs1 base_dir -> walk_completes fs2 base_dir ->
  (forall rel, eligible fs1 rel = eligible fs2 rel) ->
  process_directory fs1 (open_rb fs1 base_dir) base_dir w =
  process_directory fs2 (open_rb fs2 base_dir) base_dir w.
Proof.
  intros Hwf1 Hwf2 Hw1 Hw2 Hsame.
  assert (Hsort : sort (kept fs1) = sort (kept fs2)).
  { apply sorted_unique.
    - apply sort_sorted, kept_NoDup, Hwf1.
    - apply sort_sorted, kept_NoDup, Hwf2.
    - intros rel. rewrite !sort_In, !kept_eligible, Hsame. reflexivity. }
  rewrite (process_directory_eq fs1 _ _ _ Hw1),
          (process_directory_eq fs2 _ _ _ Hw2), <- Hsort.
  destruct (readers_agree (open_rb fs1 base_dir) (open_rb fs2 base_dir)
              base_dir (sort (kept fs1))) as [H1 [H2 H3]].
  { intros rel Hin. apply sort_In, kept_eligible in Hin as [data He1].
    assert (He2 : eligible fs2 rel = Some data) by now rewrite <- Hsame.
    destruct (eligible_inv _ _ _ He1) as [n1 [_ [_ [-> _]]]].
    destruct (eligible_inv _ _ _ He2) as [n2 [_ [_ [-> _]]]].
    now rewrite (open_rb_eligible n1 base_dir rel data He1),
                (open_rb_eligible n2 base_dir rel data He2). }
  now rewrite H1, H2, H3.
Qed.

Lemma unique_names_intro (es : list (str * node)) :
  NoDup (map fst es) -> Forall (fun e => unique_names (snd e) = true) es ->
  unique_names (Dir (Some es)) = true.
Proof.
  induction es as [|[name child] es IH]; intros Hnd Hch; [reflexivity|].
  cbn in Hnd. inversion Hnd as [|? ? Hnot Hnd']; subst.
  inversion Hch as [|? ? Hc Hch']; subst. cbn [snd] in Hc.
  specialize (IH Hnd' Hch'). cbn in IH |- *. rewrite Hc, IH.
  rewrite !andb_true_r. apply negb_true_iff.
  destruct (existsb _ es) eqn:Ex; [|reflexivity].
  apply existsb_exists in Ex as [e [Hin He]]. apply str_eqb_eq in He.
  destruct Hnot. rewrite <- He. now apply in_map.
Qed.

Lemma find_absent (es : list (str * node)) (name : str) :
  ~ In name (map fst es) -> find (fun e => str_eqb (fst e) name) es = None.
Proof.
  induction es as [|e es IH]; intros Hnot; [reflexivity|].
  cbn [find]. destruct (str_eqb (fst e) name) eqn:E.
  - apply str_eqb_eq in E. destruct Hnot. left. exact E.
  - apply IH. intros Hin. apply Hnot. now right.
Qed.

(** An entry of the root that holds no eligible file can be left out. *)
Lemma eligible_remove (es1 es2 : list (str * node)) (e : str * node)
    (rel : Path) :
  NoDup (map fst (es1 ++ e :: es2)) ->
  (forall r, eligible (Some (Dir (Some [e]))) r = None) ->
  eligible (Some (Dir (Some (es1 ++ e :: es2)))) rel =
  eligible (Some (Dir (Some (es1 ++ es2)))) rel.
Proof.
  intros Hnd Hnone. specialize (Hnone rel). unfold eligible in *.
  destruct rel as [|c1 rel']; [reflexivity|].
  rewrite !lookup_cons, !find_app in *.
  destruct (find _ es1); [reflexivity|]. cbn [find] in *.
  destruct (str_eqb (fst e) c1) eqn:E; [|reflexivity].
  apply str_eqb_eq in E. subst c1. rewrite Hnone.
  rewrite find_absent.
  - destruct (rev (fst e :: rel')); reflexivity.
  - rewrite map_app in Hnd. cbn [map] in Hnd.
    apply NoDup_remove_2 in Hnd. intros Hin. apply Hnd.
    apply in_or_app. now right.
Qed.

(** ** What a file with an excluded name holds *)

Section ExcludedContent.
Context (es1 es2 : list (str * node)) (name : str) (c c' : io_result bytes).


Lemma os_walk_file_content (top : Path) : os_walk top (with_file es1 es2 name c) =
  os_walk top (with_file es1 es2 name c').
Proof.
  unfold with_file. cbn [os_walk].
  rewrite !filter_app, !flat_map_app.
  cbn [filter flat_map snd node_is_dir negb].
  rewrite !map_app. reflexivity.
Qed.

Lemma lookup_file_content (rel : Path) :
  rel <> [] -> rel <> [name] -> lookup (with_file es1 es2 name c) rel = lookup (with_file es1 es2 name c') rel.
Proof.
  intros Hnil Hne. destruct rel as [|c1 rel']; [congruence|].
  unfold with_file. rewrite !lookup_cons, !find_app.
  destruct (find _ es1); [reflexivity|]. cbn [find fst].
  destruct (str_eqb name c1) eqn:E; [|reflexivity].
  apply str_eqb_eq in E. subst c1. cbn [snd].
  destruct rel' as [|x r]; [congruence|]. reflexivity.
Qed.

Lemma is_dir_file_content (base_dir p : Path) :
  p <> base_dir ++ [name] ->
  is_dir (Some (with_file es1 es2 name c)) base_dir p = is_dir (Some (with_file es1 es2 name c')) base_dir p.
Proof.
  intros Hne. unfold is_dir, resolve.
  destruct (strip_prefix p base_dir) as [rel|] eqn:Es; [|reflexivity].
  apply strip_prefix_Some in Es. subst p.
  destruct rel as [|c1 rel']; [reflexivity|].
  rewrite lookup_file_content; [reflexivity|discriminate|congruence].
Qed.

Lemma open_rb_file_content (base_dir p : Path) :
  p <> base_dir ++ [name] ->
  open_rb (Some (with_file es1 es2 name c)) base_dir p = open_rb (Some (with_file es1 es2 name c')) base_dir p.
Proof.
  intros Hne. unfold open_rb, resolve.
  destruct (strip_prefix p base_dir) as [rel|] eqn:Es; [|reflexivity].
  apply strip_prefix_Some in Es. subst p.
  destruct rel as [|c1 rel']; [reflexivity|].
  rewrite lookup_file_content; [reflexivity|discriminate|congruence].
Qed.

Hypothesis excluded : name_allowed name = false.

Lemma not_excluded_path (base_dir root : Path) (file : str) :
  startswith file (lit "llmify") || endswith file (lit ".md.llm") = false ->
  path_join root file <> base_dir ++ [name].
Proof.
  intros Ex E. apply app_inj_tail in E as [_ ->].
  apply name_excluded in excluded. congruence.
Qed.

(** The first loop does not look at a file with an excluded name. *)
Lemma first_loop_file_content (base_dir : Path) (s : list Path) :
  first_loop (Some (with_file es1 es2 name c)) base_dir s = first_loop (Some (with_file es1 es2 name c')) base_dir s.
Proof.
  unfold first_loop, walk. rewrite os_walk_file_content.
  apply for_each_ext. intros [[root dirs] files] _ s0.
  apply for_each_ext. intros file _ s1.
  destruct (startswith file (lit "llmify") || endswith file (lit ".md.llm"))
    eqn:Ex; [reflexivity|].
  cbv zeta. unfold is_text_file.
  now rewrite (is_dir_file_content base_dir _ (not_excluded_path _ _ _ Ex)),
              (open_rb_file_content base_dir _ (not_excluded_path _ _ _ Ex)).
Qed.

(** Nor does the second loop, on a tree that stays as it is. *)
Lemma process_directory_file_content (base_dir : Path) (w : world) :
  process_directory (Some (with_file es1 es2 name c)) (open_rb (Some (with_file es1 es2 name c)) base_dir) base_dir w =
  process_directory (Some (with_file es1 es2 name c')) (open_rb (Some (with_file es1 es2 name c')) base_dir) base_dir w.
Proof.
  unfold process_directory. rewrite first_loop_file_content.
  destruct (first_loop (Some (with_file es1 es2 name c')) base_dir []) as [l [u|e]] eqn:E;
    [|reflexivity].
  apply for_each_ext. intros p Hin s. apply process_file_reader.
  apply open_rb_file_content.
  apply (proj1 (sort_In _ _)) in Hin.
  assert (Hp : In p (all_files (Some (with_file es1 es2 name c')) base_dir)).
  { unfold all_files. now rewrite E. }
  apply all_files_inv in Hp as [root [file [-> [Ex _]]]].
  now apply not_excluded_path.
Qed.
End ExcludedContent.

(** ** Paths below one directory *)

Lemma path_le_compare (a b : Path) : path_le a b <-> path_compare a b <> Gt.
Proof.
  unfold path_le, path_ltb. rewrite (path_compare_antisym a b).
  destruct (path_compare a b); cbn; split; congruence.
Qed.

Lemma path_le_trans (a b c : Path) : path_le a b -> path_le b c -> path_le a c.
Proof.
  unfold path_le, path_ltb. intros H1 H2.
  destruct (path_compare c a) eqn:Eca; try reflexivity.
  destruct (path_compare b a) eqn:Eba; try discriminate.
  - apply path_compare_eq in Eba. subst b. now rewrite Eca in H2.
  - rewrite (path_compare_antisym a b) in Eba.
    destruct (path_compare a b) eqn:Eab; try discriminate.
    now rewrite (path_compare_trans c a b Eca Eab) in H2.
Qed.

Lemma path_lt_le (a b : Path) : path_ltb a b = true -> path_le a b.
Proof.
  unfold path_le, path_ltb. rewrite (path_compare_antisym a b).
  destruct (path_compare a b); cbn; congruence.
Qed.

Lemma insert_sorted_le (a : Path) (l : list Path) :
  StronglySorted path_le l -> StronglySorted path_le (insert a l).
Proof.
  induction 1 as [|b l Hs IH Hb]; simpl.
  - repeat constructor.
  - destruct (path_ltb b a) eqn:E.
    + constructor; [exact IH|].
      apply Forall_forall. intros x Hx. apply insert_In in Hx.
      destruct Hx as [->|Hx]; [now apply path_lt_le|].
      rewrite Forall_forall in Hb. auto.
    + constructor; [constructor; assumption|].
      constructor; [exact E|].
      rewrite Forall_forall in Hb |- *.
      intros x Hx. apply path_le_trans with b; [exact E|auto].
Qed.

(** The sorted list is ascending, whatever was put into it. *)
Lemma sort_sorted_le (l : list Path) : StronglySorted path_le (sort l).
Proof.
  induction l as [|a l IH]; simpl; [constructor|].
  now apply insert_sorted_le.
Qed.

(** The paths below a directory form an interval of the order. *)
Lemma path_compare_convex (d x y q : Path) :
  path_compare (d ++ x) q <> Gt -> path_compare q (d ++ y) <> Gt ->
  exists z, q = d ++ z.
Proof.
  revert q. induction d as [|a d IH]; intros q H1 H2; [now exists q|].
  destruct q as [|b q]; [now destruct H1|].
  unfold path_compare in *. cbn [app lex_compare] in H1, H2.
  rewrite (str_compare_antisym a b) in H2.
  destruct (str_compare a b) eqn:E; cbn [CompOpp] in H2;
    try congruence.
  apply str_compare_eq in E. subst b.
  destruct (IH q H1 H2) as [z ->]. now exists z.
Qed.

Lemma sorted_after {A : Type} (R : A -> A -> Prop) (l1 l2 : list A) (a : A) :
  StronglySorted R (l1 ++ a :: l2) -> Forall (R a) l2 /\ StronglySorted R l2.
Proof.
  induction l1 as [|b l1 IH]; cbn [app]; intros H; inversion H; subst; auto.
Qed.

Lemma sorted_before {A : Type} (R : A -> A -> Prop) (l1 l2 : list A) (a : A) :
  StronglySorted R (l1 ++ a :: l2) -> Forall (fun q => R q a) l1.
Proof.
  induction l1 as [|b l1 IH]; cbn [app]; intros H; [constructor|].
  inversion H as [|? ? Hs Hb]; subst. constructor; [|eauto].
  rewrite Forall_forall in Hb. apply Hb. apply in_or_app. right. now left.
Qed.

(** * The claims *)

(** C1, as the program has it: in a tree where no directory lists a
    name twice, when [is_dir] raises on no entry of the walk and every
    name can be encoded as UTF-8, the call returns and the sections
    written are those of the eligible files, each once and none
    missing, in strictly ascending order of their relative paths,
    where paths are compared as [Path] objects, that is part by part,
    each part by code point. *)
Theorem sections_in_path_order (fs : option node) (base_dir : Path) (w : world) :
  well_formed fs = true ->
  walk_completes fs base_dir ->
  names_ok fs = true ->
  exists rels,
    StronglySorted path_lt rels
    /\ NoDup rels
    /\ (forall rel, In rel rels <-> exists data, eligible fs rel = Some data)
    /\ output_file
         (fst (process_directory fs (open_rb fs base_dir) base_dir w)) =
       output_file w
       ++ sections (fun rel => option_map read_text (eligible fs rel)) rels
    /\ snd (process_directory fs (open_rb fs base_dir) base_dir w) = Ok tt.
Proof.
  intros Hwf Hw Hn. exists (sort (kept fs)).
  assert (Hs : StronglySorted path_lt (sort (kept fs))).
  { apply sort_sorted, kept_NoDup, Hwf. }
  split; [exact Hs|]. split.
  { apply (strictly_sorted_NoDup path_lt path_lt_irrefl), Hs. }
  split.
  { intros rel. rewrite sort_In. apply kept_eligible. }
  rewrite (process_directory_eq _ _ _ _ Hw). cbn [fst snd output_file].
  split; [|reflexivity]. f_equal.
  rewrite writes_sections by now apply kept_encodable.
  apply sections_ext_in. intros rel. apply body_at_eligible.
Qed.

Lemma sections_in_path_order_witness :
  exists rels,
    StronglySorted path_lt rels
    /\ NoDup rels
    /\ (forall rel,
          In rel rels <-> exists data, eligible example_tree rel = Some data)
    /\ output_file
         (fst (process_directory example_tree
                 (open_rb example_tree example_base) example_base empty_world)) =
       output_file empty_world
       ++ sections (fun rel => option_map read_text (eligible example_tree rel))
            rels
    /\ snd (process_directory example_tree
              (open_rb example_tree example_base) example_base empty_world)
       = Ok tt.
Proof.
  apply (sections_in_path_order example_tree example_base empty_world).
  - reflexivity.
  - reflexivity.
  - reflexivity.
Defined.

(** C1, as the specification has it, fails: with a directory [a] beside
    a file [a.txt], no list of the eligible relative paths in ascending
    code point order of their text gives the sections that are
    written.  The program writes [a/b] before [a.txt]; as text,
    [a.txt] comes first. *)
Lemma text_order_counterexample :
  ~ exists rels,
      StronglySorted text_lt rels
      /\ (forall rel,
            In rel rels <-> exists data, eligible sibling_tree rel = Some data)
      /\ output_file
           (fst (process_directory sibling_tree
                   (open_rb sibling_tree example_base) example_base
                   empty_world)) =
         output_file empty_world
         ++ sections (fun rel => option_map read_text (eligible sibling_tree rel))
              rels.
Proof.
  intros [rels [Hs [Hin Hout]]].
  assert (E : rels = [[lit "a.txt"]; [lit "a"; lit "b"]]).
  { apply (strictly_sorted_unique text_lt text_lt_irrefl text_lt_trans).
    - exact Hs.
    - repeat constructor.
    - intros x. rewrite Hin, <- kept_eligible. reflexivity. }
  subst rels. vm_compute in Hout. discriminate.
Qed.

(** C2: [is_text_file] answers [True] exactly when the file can be
    opened and read and the first 1024 bytes hold no null byte.  A
    file with a null byte in that window, and a file whose read
    raises, are classified as binary, and the second loop never gets
    to them: they have no section in the output. *)
Theorem text_classification (fs : option node) (base_dir file_path : Path) :
  (is_text_file fs base_dir file_path = true <->
   exists data, open_rb fs base_dir file_path = Ok data
                /\ ~ In x00 (firstn 1024 data))
  /\ (forall data, open_rb fs base_dir file_path = Ok data ->
        In x00 (firstn 1024 data) ->
        is_text_file fs base_dir file_path = false
        /\ ~ In file_path (sort (all_files fs base_dir)))
  /\ (forall msg, open_rb fs base_dir file_path = Raise msg ->
        is_text_file fs base_dir file_path = false
        /\ ~ In file_path (sort (all_files fs base_dir))).
Proof.
  assert (Hnot : is_text_file fs base_dir file_path = false ->
                 ~ In file_path (sort (all_files fs base_dir))).
  { intros Hf Hin. apply sorted_files_text in Hin. congruence. }
  unfold is_text_file in *.
  destruct (open_rb fs base_dir file_path) as [data|msg].
  - change (negb (existsb (Byte.eqb x00) (firstn 1024 data)))
      with (text_window data) in *.
    repeat split.
    + intros Ht. exists data. split; [reflexivity|]. now apply text_window_true.
    + intros [data' [E Hw]]. injection E as <-. now apply text_window_true.
    + injection H as <-. now apply null_in_window.
    + injection H as <-. apply Hnot. now apply null_in_window.
    + discriminate.
    + discriminate.
  - repeat split; try discriminate; auto.
    intros [data [E _]]. discriminate.
Qed.

Lemma text_classification_witness :
  is_text_file example_tree example_base (example_base ++ [lit "bin.dat"]) = false
  /\ ~ In (example_base ++ [lit "bin.dat"])
          (sort (all_files example_tree example_base)).
Proof.
  apply (proj1 (proj2 (text_classification example_tree example_base
                         (example_base ++ [lit "bin.dat"])))
           [x00; x01; x02]).
  - reflexivity.
  - simpl. now left.
Defined.

(** C3, as the program has it: when there is nothing at the root or
    its listing fails, the walk yields nothing, [process_directory]
    writes and reports nothing and returns; the run raises only if the
    output file cannot be opened for writing, and otherwise ends
    normally with a document that holds the banner alone. *)
Theorem unlistable_root (fs : option node) (reader : Path -> io_result bytes)
    (base_dir : Path) (w : world) (open_w : Path -> option str) :
  fs = None \/ fs = Some (Dir None) ->
  process_directory fs reader base_dir w = (w, Ok tt)
  /\ main base_dir fs reader open_w =
     match open_w (path_join base_dir (lit "microagents.md.llm")) with
     | Some e =>
         ({| output_file := [];
             stdout := [lit "Starting to process files in " ++ path_str base_dir;
                        lit "Output will be written to "
                        ++ path_str (path_join base_dir (lit "microagents.md.llm"))];
             stderr := [] |},
          Some e)
     | None =>
         ({| output_file := banner;
             stdout := [lit "Starting to process files in " ++ path_str base_dir;
                        lit "Output will be written to "
                        ++ path_str (path_join base_dir (lit "microagents.md.llm"));
                        lit "Done! Output written to "
                        ++ path_str (path_join base_dir (lit "microagents.md.llm"))];
             stderr := [] |},
          None)
     end.
Proof.
  intros Hfs.
  assert (Hp : forall w0, process_directory fs reader base_dir w0 = (w0, Ok tt)).
  { intros w0. destruct Hfs as [-> | ->]; reflexivity. }
  split; [apply Hp|].
  destruct (open_w (path_join base_dir (lit "microagents.md.llm")))
    as [e|] eqn:Hopen.
  - now apply main_not_opened.
  - rewrite (main_eq _ _ _ _ Hopen), Hp. reflexivity.
Qed.

Lemma unlistable_root_witness :
  process_directory (Some (Dir None)) gone example_base empty_world
  = (empty_world, Ok tt)
  /\ snd (main example_base None gone (fun p => Some (gone_message p)))
     = Some (gone_message (path_join example_base (lit "microagents.md.llm"))).
Proof.
  split.
  - apply (unlistable_root (Some (Dir None)) gone example_base empty_world
             (fun _ => None)).
    now right.
  - rewrite (proj2 (unlistable_root None gone example_base empty_world
                      (fun p => Some (gone_message p)) (or_introl eq_refl))).
    reflexivity.
Defined.

(** C3, as the specification has it, fails: on a root that cannot be
    listed the run ends normally, and nothing is reported; so does
    [process_directory] on a root that does not exist. *)
Lemma unlistable_root_counterexample :
  snd (main example_base (Some (Dir None)) gone (fun _ => None)) = None
  /\ stderr (fst (main example_base (Some (Dir None)) gone (fun _ => None))) = []
  /\ document (fst (main example_base (Some (Dir None)) gone (fun _ => None)))
     = List.concat banner
  /\ process_directory None gone example_base empty_world
     = (empty_world, Ok tt).
Proof. repeat split. Qed.

(** C4, as the program has it: when the first loop has got to its end
    and reading an entry of the sorted list raises, the separator and
    heading of the entry, if they can be encoded, are already written
    and stay in the output, without a body; one error line names the
    entry; the entries before and after it leave what they leave
    without it; and the call returns. *)
Theorem unreadable_entry (fs : option node) (reader : Path -> io_result bytes)
    (base_dir : Path) (w : world) (before after : list Path) (rel : Path)
    (e : str) :
  walk_completes fs base_dir ->
  sort (all_files fs base_dir) = map (app base_dir) (before ++ rel :: after) ->
  encodable (heading rel) = true ->
  reader (base_dir ++ rel) = Raise e ->
  output_file (fst (process_directory fs reader base_dir w)) =
    output_file w ++ writes reader base_dir before
    ++ [heading rel] ++ writes reader base_dir after
  /\ stderr (fst (process_directory fs reader base_dir w)) =
     stderr w ++ error_lines reader base_dir before
     ++ [lit "Error processing " ++ path_str (base_dir ++ rel) ++ lit ": " ++ e]
     ++ error_lines reader base_dir after
  /\ stdout (fst (process_directory fs reader base_dir w)) =
     stdout w ++ progress_lines reader base_dir before
     ++ progress_lines reader base_dir after
  /\ snd (process_directory fs reader base_dir w) = Ok tt.
Proof.
  intros Hw Hsort Henc Hread. unfold process_directory.
  unfold walk_completes in Hw. unfold all_files in Hsort.
  destruct (first_loop fs base_dir []) as [l [u|e']]; [|discriminate].
  cbn [fst] in Hsort. rewrite Hsort, process_files.
  cbn [fst snd output_file stdout stderr].
  change (rel :: after) with ([rel] ++ after).
  unfold writes, error_lines, progress_lines.
  rewrite !flat_map_app. cbn [flat_map]. rewrite Henc, Hread.
  repeat split.
Qed.

Lemma unreadable_entry_witness :
  output_file
    (fst (process_directory example_tree
            (vanished example_tree example_base (example_base ++ [lit "a.txt"]))
            example_base empty_world)) =
  [heading [lit "a.txt"]; heading [lit "sub"; lit "b.txt"]; lit "world"]
  /\ stderr
       (fst (process_directory example_tree
               (vanished example_tree example_base
                  (example_base ++ [lit "a.txt"]))
               example_base empty_world)) =
     [lit "Error processing /repo/.openhands/microagents/a.txt: [Errno 2] No such file or directory: '/repo/.openhands/microagents/a.txt'"].
Proof.
  pose proof (unreadable_entry example_tree
                (vanished example_tree example_base
                   (example_base ++ [lit "a.txt"]))
                example_base empty_world [] [[lit "sub"; lit "b.txt"]]
                [lit "a.txt"]
                (lit "[Errno 2] No such file or directory: '/repo/.openhands/microagents/a.txt'"))
    as H.
  destruct H as [H1 [H2 _]].
  - reflexivity.
  - reflexivity.
  - reflexivity.
  - reflexivity.
  - rewrite H1, H2. split; reflexivity.
Defined.

(** C4, as the specification has it, fails: the one eligible file of
    the tree cannot be read any more, and yet the entry leaves its
    separator and heading in the document. *)
Lemma unreadable_entry_counterexample :
  output_file
    (fst (process_directory single_tree gone example_base empty_world)) =
    [heading [lit "a.txt"]]
  /\ document (fst (process_directory single_tree gone example_base empty_world))
     <> document empty_world.
Proof. split; [reflexivity|discriminate]. Qed.

(** C5, as the program has it: for a file that is read and whose
    relative path can be encoded, what is written is the newline,
    newline, [---], newline, newline, [# ], the relative path,
    newline, newline, and then, as a second [write] with nothing in
    between or after, the text that reading the file in text mode
    gives: its bytes decoded as UTF-8 with replacement, and with every
    [\r\n] and every other [\r] turned into [\n].  The document of a
    run starts with the two lines of the banner. *)
Theorem section_format (reader : Path -> io_result bytes) (base_dir rel : Path)
    (data : bytes) (w : world) :
  encodable (path_str rel) = true ->
  reader (base_dir ++ rel) = Ok data ->
  output_file (fst (process_file reader base_dir (base_dir ++ rel) w)) =
    output_file w
    ++ [[10; 10; 45; 45; 45; 10; 10; 35; 32] ++ path_str rel ++ [10; 10];
        universal_newlines (utf8_decode data)]
  /\ document (fst (process_file reader base_dir (base_dir ++ rel) w)) =
     document w ++ [10; 10; 45; 45; 45; 10; 10; 35; 32] ++ path_str rel
     ++ [10; 10] ++ universal_newlines (utf8_decode data)
  /\ forall fs open_w,
       open_w (path_join base_dir (lit "microagents.md.llm")) = None ->
       exists rest,
         document (fst (main base_dir fs reader open_w)) =
         lit "# OpenHands Microagents Documentation" ++ [10; 10]
         ++ lit "This file contains the concatenated contents of all files in the .openhands/microagents directory."
         ++ [10] ++ rest.
Proof.
  intros Henc Hread. rewrite process_file_app, encodable_heading, Henc, Hread.
  cbn [fst]. split; [|split].
  - cbn [printed wrote output_file]. rewrite <- app_assoc. reflexivity.
  - rewrite document_printed, !document_wrote. unfold read_text, heading, nl.
    rewrite <- !app_assoc. reflexivity.
  - intros fs open_w Hopen. rewrite (main_eq _ _ _ _ Hopen).
    destruct (process_directory_cases fs reader base_dir
                {| output_file := banner;
                   stdout :=
                     [lit "Starting to process files in " ++ path_str base_dir;
                      lit "Output will be written to "
                      ++ path_str (path_join base_dir (lit "microagents.md.llm"))];
                   stderr := [] |})
      as [[e [_ ->]]|[_ ->]]; cbn [fst].
    + exists []. reflexivity.
    + rewrite document_printed. unfold document. cbn [output_file].
      exists (List.concat (writes reader base_dir (sort (kept fs)))).
      rewrite concat_app. cbn. reflexivity.
Qed.

Lemma section_format_witness :
  document
    (fst (process_file (open_rb example_tree example_base) example_base
            (example_base ++ [lit "sub"; lit "b.txt"]) empty_world)) =
  [10; 10; 45; 45; 45; 10; 10; 35; 32] ++ lit "sub/b.txt" ++ [10; 10]
  ++ lit "world".
Proof.
  pose proof (section_format (open_rb example_tree example_base) example_base
                [lit "sub"; lit "b.txt"] (ascii_bytes "world") empty_world)
    as H.
  destruct H as [_ [H _]].
  - reflexivity.
  - reflexivity.
  - rewrite H. reflexivity.
Defined.

(** C5, as the specification has it, fails: the file holds the UTF-8
    text [a], carriage return, line feed, [b]; what follows its
    heading in the document is not that text. *)
Lemma raw_content_counterexample :
  utf8_encode [97; 13; 10; 98] = Some [x61; x0d; x0a; x62]
  /\ utf8_decode [x61; x0d; x0a; x62] = [97; 13; 10; 98]
  /\ document
       (fst (process_file (fun _ => Ok [x61; x0d; x0a; x62]) example_base
               (example_base ++ [lit "a.txt"]) empty_world))
     <> heading [lit "a.txt"] ++ utf8_decode [x61; x0d; x0a; x62].
Proof. repeat split. vm_compute. discriminate. Qed.

(** C6: a file whose name starts with [llmify] or ends with [.md.llm]
    is never among the files the second loop writes a section for,
    whatever its content. *)
Theorem self_exclusion (fs : option node) (base_dir root : Path) (file : str) :
  startswith file (lit "llmify") = true \/ endswith file (lit ".md.llm") = true ->
  ~ In (path_join root file) (sort (all_files fs base_dir)).
Proof.
  intros Hname Hin. apply (proj1 (sort_In _ _)) in Hin.
  apply all_files_inv in Hin as [root' [file' [E [Hn _]]]].
  apply app_inj_tail in E as [_ <-].
  apply orb_false_iff in Hn as [H1 H2]. destruct Hname; congruence.
Qed.

Lemma self_exclusion_witness :
  is_text_file example_tree example_base (path_join example_base (lit "llmify.py"))
  = true
  /\ ~ In (path_join example_base (lit "llmify.py"))
          (sort (all_files example_tree example_base))
  /\ ~ In (path_join example_base (lit "microagents.md.llm"))
          (sort (all_files example_tree example_base)).
Proof.
  split; [reflexivity|]. split.
  - apply (self_exclusion example_tree example_base example_base (lit "llmify.py")).
    left. reflexivity.
  - apply (self_exclusion example_tree example_base example_base
             (lit "microagents.md.llm")).
    right. reflexivity.
Defined.




(** C8: reading the content never fails on the bytes of a file, whatever
    they are.  The bytes are decoded in place: the encoding of a
    character gives the character, and where no character can be
    decoded a run of undecodable bytes becomes one U+FFFD.  Bytes
    that are the UTF-8 encoding of a text decode to that text.  What
    is read can always be encoded again, so writing it to the output
    file never raises; and an entry whose heading was written is
    processed without an error line, whatever its bytes. *)
Theorem decoding_total (data : bytes) :
  Replaced data (utf8_decode data)
  /\ (forall text, utf8_encode text = Some data -> utf8_decode data = text)
  /\ (exists out, utf8_encode (read_text data) = Some out)
  /\ (forall w, write (read_text data) w = (wrote w (read_text data), Ok tt))
  /\ (forall base_dir rel w,
        encodable (path_str rel) = true ->
        process_file (fun _ => Ok data) base_dir (base_dir ++ rel) w =
        (printed (wrote (wrote w (heading rel))
                        (universal_newlines (utf8_decode data)))
                 (lit "Processed: " ++ path_str rel),
         Ok tt)).
Proof.
  split; [apply utf8_decode_Replaced|].
  split; [intros text; apply utf8_decode_encode|].
  split.
  { apply utf8_encode_scalar, universal_newlines_scalar.
    apply Replaced_scalar with data, utf8_decode_Replaced. }
  split.
  - intros w. unfold write. now rewrite read_text_encodable.
  - intros base_dir rel w Henc.
    now rewrite process_file_app, encodable_heading, Henc.
Qed.

Lemma decoding_total_witness :
  utf8_decode [xe2; x82; xac; x21] = [0x20AC; 33]
  /\ utf8_decode [xe2; x82; x21; xff] = [REPLACEMENT; 33; REPLACEMENT].
Proof.
  split; [|reflexivity].
  apply (proj1 (proj2 (decoding_total [xe2; x82; xac; x21]))).
  reflexivity.
Defined.

(** C9, as the program has it: a file that passes the name rules and
    has no null byte among its first 1024 bytes is classified as
    text, whatever comes after the window, and the classification is
    the same for any other content with the same first 1024 bytes.
    The file gets its section when, besides, the first loop gets to
    its end and the relative path of the file can be encoded. *)
Theorem probe_window_only (n : node) (base_dir d : Path) (file : str)
    (data : bytes) (w : world) :
  lookup n (d ++ [file]) = Some (File (Ok data)) ->
  name_allowed file = true ->
  ~ In x00 (firstn 1024 data) ->
  is_text_file (Some n) base_dir (base_dir ++ d ++ [file]) = true
  /\ (forall n' data',
        lookup n' (d ++ [file]) = Some (File (Ok data')) ->
        firstn 1024 data' = firstn 1024 data ->
        is_text_file (Some n') base_dir (base_dir ++ d ++ [file]) = true)
  /\ (walk_completes (Some n) base_dir ->
      In (base_dir ++ d ++ [file]) (sort (all_files (Some n) base_dir))
      /\ (encodable (path_str (d ++ [file])) = true ->
          exists before after,
            output_file
              (fst (process_directory (Some n) (open_rb (Some n) base_dir)
                      base_dir w)) =
            before ++ [heading (d ++ [file]); read_text data] ++ after)).
Proof.
  intros Hl Hn Hw.
  assert (He : eligible (Some n) (d ++ [file]) = Some data).
  { apply eligible_intro; auto. now apply text_window_true. }
  split; [now apply is_text_file_lookup with (data := data)|].
  split.
  { intros n' data' Hl' Hsame. apply is_text_file_lookup with (data := data').
    - exact Hl'.
    - now rewrite Hsame. }
  intros Hwalk. split; [apply in_sorted_files; eauto|].
  intros Henc. apply eligible_section; auto.
  now rewrite encodable_heading.
Qed.

Lemma probe_window_only_witness :
  In x00 (repeat x61 1024 ++ [x00; x01])
  /\ is_text_file long_tree example_base (example_base ++ [] ++ [lit "long.txt"])
     = true
  /\ In (example_base ++ [] ++ [lit "long.txt"])
        (sort (all_files long_tree example_base)).
Proof.
  split.
  - apply in_or_app. right. now left.
  - pose proof (probe_window_only
                  (Dir (Some
                     [(lit "long.txt", File (Ok (repeat x61 1024 ++ [x00; x01])));
                      (lit "empty.txt", File (Ok []))]))
                  example_base [] (lit "long.txt")
                  (repeat x61 1024 ++ [x00; x01])
                  {| output_file := []; stdout := []; stderr := [] |}) as H.
    destruct H as [H1 [_ H2]].
    + reflexivity.
    + reflexivity.
    + apply text_window_true. vm_compute. reflexivity.
    + split; [exact H1|]. apply H2. reflexivity.
Defined.

(** C9, as the specification has it, fails: the file passes the name
    rules and holds text, it is classified as text and kept by the
    first loop, but its name is not UTF-8, so its heading cannot be
    written to the output file: the entry leaves an error line, and
    no section. *)
Lemma undecodable_name_counterexample :
  eligible surrogate_tree [surrogate_name] = Some (ascii_bytes "hello")
  /\ is_text_file surrogate_tree example_base (example_base ++ [surrogate_name])
     = true
  /\ sort (all_files surrogate_tree example_base)
     = [example_base ++ [surrogate_name]]
  /\ output_file
       (fst (process_directory surrogate_tree
               (open_rb surrogate_tree example_base) example_base empty_world))
     = []
  /\ stderr
       (fst (process_directory surrogate_tree
               (open_rb surrogate_tree example_base) example_base empty_world))
     = [lit "Error processing /repo/.openhands/microagents/"
        ++ surrogate_name
        ++ lit ": 'utf-8' codec can't encode character '\udcff' in position 9: surrogates not allowed"].
Proof. repeat split. Qed.




(** * Further properties *)

(** The scenario of the specification: the document holds the banner,
    then [a.txt] with [hello], then [sub/b.txt] with [world]; the
    binary file, the script and the earlier output are left out. *)
Example scenario_document :
  main example_base example_tree (open_rb example_tree example_base)
       (fun _ => None) =
  ({| output_file :=
        banner ++ [heading [lit "a.txt"]; lit "hello";
                   heading [lit "sub"; lit "b.txt"]; lit "world"];
      stdout :=
        [lit "Starting to process files in /repo/.openhands/microagents";
         lit "Output will be written to /repo/.openhands/microagents/microagents.md.llm";
         lit "Processed: a.txt";
         lit "Processed: sub/b.txt";
         lit "Done! Output written to /repo/.openhands/microagents/microagents.md.llm"];
      stderr := [] |},
   None).
Proof. reflexivity. Qed.

(** X1: a file that holds the UTF-8 encoding of a text without carriage
    return is read as that very text, and the bytes that encoding it
    puts into the output file are the bytes of the file; when the
    heading of the file can be encoded, its section carries the text
    unchanged. *)
Theorem valid_text_verbatim (text : str) (data : bytes) (base_dir rel : Path)
    (w : world) :
  utf8_encode text = Some data ->
  ~ In 13 text ->
  read_text data = text
  /\ utf8_encode (read_text data) = Some data
  /\ (encodable (path_str rel) = true ->
      output_file
        (fst (process_file (fun _ => Ok data) base_dir (base_dir ++ rel) w)) =
      output_file w ++ [heading rel; text]).
Proof.
  intros He Hcr.
  assert (Hr : read_text data = text).
  { unfold read_text. rewrite (utf8_decode_encode text data He).
    now apply universal_newlines_id. }
  split; [exact Hr|]. split; [now rewrite Hr|].
  intros Henc. rewrite process_file_app, encodable_heading, Henc.
  cbn [fst printed wrote output_file].
  rewrite Hr, <- app_assoc. reflexivity.
Qed.

Lemma valid_text_verbatim_witness :
  read_text [x63; xc3; xa9; x0a] = [99; 233; 10].
Proof.
  apply (valid_text_verbatim [99; 233; 10] [x63; xc3; xa9; x0a] example_base
           [lit "a.txt"] empty_world).
  - reflexivity.
  - intros [H|[H|[H|[]]]]; discriminate.
Defined.

(** X2: whatever the tree holds and whatever reading the files gives,
    [process_directory] only appends to the output file and to the two
    streams.  When the first loop gets to its end, the call returns
    and every file of [all_files] leaves exactly one line, a progress
    line or an error line; a file with a progress line leaves two
    writes, and no file more than that.  When [is_dir] raises, the
    call ends with that exception and has appended nothing. *)
Theorem every_entry_accounted (fs : option node)
    (reader : Path -> io_result bytes) (base_dir : Path) (w : world) :
  exists written printed_lines reported_lines,
    fst (process_directory fs reader base_dir w) =
      {| output_file := output_file w ++ written;
         stdout := stdout w ++ printed_lines;
         stderr := stderr w ++ reported_lines |}
    /\ (walk_completes fs base_dir ->
        snd (process_directory fs reader base_dir w) = Ok tt
        /\ (List.length printed_lines + List.length reported_lines =
            List.length (all_files fs base_dir))%nat
        /\ (2 * List.length printed_lines <= List.length written)%nat
        /\ (List.length written <=
            List.length (all_files fs base_dir) + List.length printed_lines)%nat)
    /\ (forall e, snd (first_loop fs base_dir []) = Raise e ->
        snd (process_directory fs reader base_dir w) = Raise e
        /\ written = [] /\ printed_lines = [] /\ reported_lines = []).
Proof.
  destruct (process_directory_cases fs reader base_dir w)
    as [[e [He ->]]|[Hw ->]]; cbn [fst snd].
  - exists [], [], []. rewrite !app_nil_r. split; [now destruct w|]. split.
    + unfold walk_completes. rewrite He. discriminate.
    + intros e' He'. rewrite He in He'. injection He' as <-. auto.
  - exists (writes reader base_dir (sort (kept fs))),
           (progress_lines reader base_dir (sort (kept fs))),
           (error_lines reader base_dir (sort (kept fs))).
    split; [reflexivity|]. split.
    + intros _.
      destruct (second_loop_lengths reader base_dir (sort (kept fs)))
        as [H1 [H2 H3]].
      rewrite (sorted_kept_length fs base_dir Hw) in H1, H3. auto.
    + intros e He. unfold walk_completes in Hw. rewrite Hw in He. discriminate.
Qed.

(** X3: the lines a run of [process_directory] adds to the streams,
    when the first loop gets to its end.  An error line is there
    exactly for a file of [all_files] whose heading could not be
    encoded, with the message of the encoder, or whose heading was
    written and whose read raised, with the message of the read; it
    names the file.  A progress line is there exactly for a file of
    [all_files] whose heading was written and that was read, with its
    relative path.  No other failure is reported. *)
Theorem diagnostic_lines (fs : option node) (reader : Path -> io_result bytes)
    (base_dir : Path) (w : world) (line : str) :
  walk_completes fs base_dir ->
  (In line (stderr (fst (process_directory fs reader base_dir w))) <->
   In line (stderr w)
   \/ exists rel e,
        In (base_dir ++ rel) (all_files fs base_dir)
        /\ (encodable (heading rel) = false /\ e = encode_error (heading rel)
            \/ encodable (heading rel) = true
               /\ reader (base_dir ++ rel) = Raise e)
        /\ line = lit "Error processing " ++ path_str (base_dir ++ rel)
                  ++ lit ": " ++ e)
  /\ (In line (stdout (fst (process_directory fs reader base_dir w))) <->
      In line (stdout w)
      \/ exists rel data,
           In (base_dir ++ rel) (all_files fs base_dir)
           /\ encodable (heading rel) = true
           /\ reader (base_dir ++ rel) = Ok data
           /\ line = lit "Processed: " ++ path_str rel).
Proof.
  intros Hw. rewrite (process_directory_eq _ _ _ _ Hw). cbn [fst stdout stderr].
  unfold error_lines, progress_lines. rewrite !in_app_iff, !in_flat_map.
  assert (Hrel : forall rel,
             In (base_dir ++ rel) (all_files fs base_dir)
             <-> In rel (sort (kept fs))).
  { intros rel. rewrite (in_all_files _ _ _ Hw). split.
    - intros [rel' [E Hin]]. apply app_inv_head in E. now subst rel'.
    - intros Hin. eauto. }
  split; split.
  - intros [H|[rel [Hin Hl]]]; [now left|right].
    destruct (encodable (heading rel)) eqn:Henc.
    + destruct (reader (base_dir ++ rel)) as [data|e] eqn:Hr; [destruct Hl|].
      destruct Hl as [<-|[]]. exists rel, e.
      split; [now apply Hrel|]. split; [right; auto|reflexivity].
    + destruct Hl as [<-|[]]. exists rel, (encode_error (heading rel)).
      split; [now apply Hrel|]. split; [left; auto|reflexivity].
  - intros [H|[rel [e [Hin [Hcase ->]]]]]; [now left|right].
    exists rel. split; [now apply Hrel|].
    destruct Hcase as [[Henc ->]|[Henc Hr]]; rewrite Henc.
    + now left.
    + rewrite Hr. now left.
  - intros [H|[rel [Hin Hl]]]; [now left|right].
    destruct (encodable (heading rel)) eqn:Henc; [|destruct Hl].
    destruct (reader (base_dir ++ rel)) as [data|e] eqn:Hr; [|destruct Hl].
    destruct Hl as [<-|[]]. exists rel, data.
    split; [now apply Hrel|]. auto.
  - intros [H|[rel [data [Hin [Henc [Hr ->]]]]]]; [now left|right].
    exists rel. split; [now apply Hrel|]. rewrite Henc, Hr. now left.
Qed.

Lemma diagnostic_lines_witness :
  In (lit "Error processing /repo/.openhands/microagents/a.txt: [Errno 2] No such file or directory: '/repo/.openhands/microagents/a.txt'")
     (stderr
        (fst (process_directory example_tree
                (vanished example_tree example_base
                   (example_base ++ [lit "a.txt"]))
                example_base empty_world)))
  /\ In (lit "Processed: sub/b.txt")
        (stdout
           (fst (process_directory example_tree
                   (vanished example_tree example_base
                      (example_base ++ [lit "a.txt"]))
                   example_base empty_world))).
Proof.
  split.
  - apply (proj1 (diagnostic_lines example_tree
                    (vanished example_tree example_base
                       (example_base ++ [lit "a.txt"]))
                    example_base empty_world _ eq_refl)).
    right. exists [lit "a.txt"],
      (gone_message (example_base ++ [lit "a.txt"])).
    split; [now left|]. split; [right; split; reflexivity|reflexivity].
  - apply (proj2 (diagnostic_lines example_tree
                    (vanished example_tree example_base
                       (example_base ++ [lit "a.txt"]))
                    example_base empty_world _ eq_refl)).
    right. exists [lit "sub"; lit "b.txt"], (ascii_bytes "world").
    split; [right; now left|]. repeat split.
Defined.

(** X4: on a tree that stays as it is during the run, when the first
    loop gets to its end and every name of the tree can be encoded,
    no error line is printed: every file of [all_files] passed the
    probe, so it is read; each gets two writes (heading and body) and
    one progress line. *)
Theorem unchanged_tree_no_errors (fs : option node) (base_dir : Path)
    (w : world) :
  walk_completes fs base_dir ->
  names_ok fs = true ->
  stderr (fst (process_directory fs (open_rb fs base_dir) base_dir w)) = stderr w
  /\ (List.length
        (stdout (fst (process_directory fs (open_rb fs base_dir) base_dir w))) =
      List.length (stdout w) + List.length (all_files fs base_dir))%nat
  /\ (List.length
        (output_file
           (fst (process_directory fs (open_rb fs base_dir) base_dir w))) =
      List.length (output_file w) + 2 * List.length (all_files fs base_dir))%nat.
Proof.
  intros Hw Hn. rewrite (process_directory_eq _ _ _ _ Hw).
  cbn [fst output_file stdout stderr].
  pose proof (kept_encodable fs Hn) as Henc.
  assert (He : error_lines (open_rb fs base_dir) base_dir (sort (kept fs)) = []).
  { apply error_lines_nil; [exact Henc|]. intros rel. apply kept_read_back. }
  destruct (second_loop_lengths (open_rb fs base_dir) base_dir (sort (kept fs)))
    as [H1 _].
  pose proof (second_loop_headings (open_rb fs base_dir) base_dir
                (sort (kept fs)) Henc) as H2.
  rewrite He in *. cbn [List.length] in H1.
  rewrite (sorted_kept_length fs base_dir Hw) in H1, H2.
  rewrite app_nil_r, !length_app. split; [reflexivity|]. lia.
Qed.

Lemma unchanged_tree_no_errors_witness :
  stderr
    (fst (process_directory example_tree (open_rb example_tree example_base)
            example_base empty_world)) = []
  /\ List.length
       (output_file
          (fst (process_directory example_tree
                  (open_rb example_tree example_base) example_base
                  empty_world))) = 4%nat.
Proof.
  destruct (unchanged_tree_no_errors example_tree example_base empty_world)
    as [H1 [_ H3]].
  - reflexivity.
  - reflexivity.
  - split; [exact H1|]. rewrite H3. reflexivity.
Defined.

(** X5: when the first loop gets to its end and no file under the root
    is eligible (the directory is empty, or holds only binary files,
    files that cannot be opened, the script and earlier outputs),
    [process_directory] writes nothing and prints nothing, and the
    document of a run is the banner alone. *)
Theorem nothing_eligible (fs : option node) (reader : Path -> io_result bytes)
    (base_dir : Path) (w : world) (open_w : Path -> option str) :
  walk_completes fs base_dir ->
  (forall rel, eligible fs rel = None) ->
  process_directory fs reader base_dir w = (w, Ok tt)
  /\ (open_w (path_join base_dir (lit "microagents.md.llm")) = None ->
      output_file (fst (main base_dir fs reader open_w)) = banner
      /\ stderr (fst (main base_dir fs reader open_w)) = []
      /\ snd (main base_dir fs reader open_w) = None).
Proof.
  intros Hw Hnone. apply not_eligible_kept_nil in Hnone.
  assert (Hp : forall w0, process_directory fs reader base_dir w0 = (w0, Ok tt)).
  { intros w0. rewrite (process_directory_eq _ _ _ _ Hw), Hnone. cbn.
    rewrite !app_nil_r. now destruct w0. }
  split; [apply Hp|]. intros Hopen. rewrite (main_eq _ _ _ _ Hopen), Hp.
  repeat split.
Qed.

Lemma nothing_eligible_witness :
  process_directory empty_tree gone example_base empty_world
  = (empty_world, Ok tt)
  /\ output_file
       (fst (main example_base barren_tree (open_rb barren_tree example_base)
               (fun _ => None))) = banner.
Proof.
  split.
  - apply (nothing_eligible empty_tree gone example_base empty_world
             (fun _ => None)).
    + reflexivity.
    + apply kept_nil_not_eligible. reflexivity.
  - apply (nothing_eligible barren_tree (open_rb barren_tree example_base)
             example_base empty_world (fun _ => None)).
    + reflexivity.
    + apply kept_nil_not_eligible. reflexivity.
    + reflexivity.
Defined.

(** X6: an entry of the root under which nothing is eligible (a
    directory that cannot be listed or is not followed, a file that
    cannot be opened, a binary file, a file with an excluded name) is
    passed over in silence, as long as the first loop gets to its end
    with and without it: the run is the one of the tree without that
    entry, with the same document and the same lines on both
    streams. *)
Theorem ineligible_entry_invisible (es1 es2 : list (str * node))
    (e : str * node) (script_dir : Path) (open_w : Path -> option str) :
  unique_names (Dir (Some (es1 ++ e :: es2))) = true ->
  walk_completes (Some (Dir (Some (es1 ++ e :: es2)))) script_dir ->
  walk_completes (Some (Dir (Some (es1 ++ es2)))) script_dir ->
  (forall rel, eligible (Some (Dir (Some [e]))) rel = None) ->
  main script_dir (Some (Dir (Some (es1 ++ e :: es2))))
       (open_rb (Some (Dir (Some (es1 ++ e :: es2)))) script_dir) open_w =
  main script_dir (Some (Dir (Some (es1 ++ es2))))
       (open_rb (Some (Dir (Some (es1 ++ es2)))) script_dir) open_w.
Proof.
  intros Hu Hw Hw' Hnone. pose proof (unique_names_Dir _ Hu) as [Hnd Hch].
  assert (Hu' : unique_names (Dir (Some (es1 ++ es2))) = true).
  { apply unique_names_intro.
    - rewrite map_app in *. cbn [map] in Hnd.
      now apply NoDup_remove_1 in Hnd.
    - apply Forall_app in Hch as [H1 H2]. inversion H2; subst.
      apply Forall_app. split; assumption. }
  destruct (open_w (path_join script_dir (lit "microagents.md.llm")))
    as [msg|] eqn:Hopen.
  - now rewrite !(main_not_opened _ _ _ _ msg Hopen).
  - rewrite !(main_eq _ _ _ _ Hopen).
    rewrite (same_eligible_same_run
               (Some (Dir (Some (es1 ++ e :: es2))))
               (Some (Dir (Some (es1 ++ es2)))) script_dir _ Hu Hu' Hw Hw');
      [reflexivity|].
    intros rel. now apply eligible_remove.
Qed.

Lemma ineligible_entry_invisible_witness :
  main example_base (Some (Dir (Some (private_entry :: public_entries))))
       (open_rb (Some (Dir (Some (private_entry :: public_entries))))
          example_base)
       (fun _ => None) =
  main example_base (Some (Dir (Some public_entries)))
       (open_rb (Some (Dir (Some public_entries))) example_base)
       (fun _ => None).
Proof.
  apply (ineligible_entry_invisible [] public_entries private_entry
           example_base (fun _ => None)).
  - reflexivity.
  - reflexivity.
  - reflexivity.
  - apply kept_nil_not_eligible. reflexivity.
Defined.

(** X7: what the output file of an earlier run holds does not matter
    to the next run.  [main] writes to [microagents.md.llm] in the
    directory it walks, and that name is excluded by its suffix; so
    a run gives the same document and the same lines whatever that
    file holds. *)
Theorem rerun_stable (es1 es2 : list (str * node)) (c c' : io_result bytes)
    (script_dir : Path) (open_w : Path -> option str) :
  unique_names
    (Dir (Some (es1 ++ (lit "microagents.md.llm", File c) :: es2))) = true ->
  main script_dir
       (Some (Dir (Some (es1 ++ (lit "microagents.md.llm", File c) :: es2))))
       (open_rb
          (Some (Dir (Some (es1 ++ (lit "microagents.md.llm", File c) :: es2))))
          script_dir)
       open_w =
  main script_dir
       (Some (Dir (Some (es1 ++ (lit "microagents.md.llm", File c') :: es2))))
       (open_rb
          (Some (Dir (Some (es1 ++ (lit "microagents.md.llm", File c') :: es2))))
          script_dir)
       open_w.
Proof.
  intros _.
  destruct (open_w (path_join script_dir (lit "microagents.md.llm")))
    as [msg|] eqn:Hopen.
  - now rewrite !(main_not_opened _ _ _ _ msg Hopen).
  - rewrite !(main_eq _ _ _ _ Hopen).
    now rewrite (process_directory_file_content es1 es2
                   (lit "microagents.md.llm") c c' eq_refl script_dir).
Qed.

Lemma rerun_stable_witness :
  main example_base example_tree (open_rb example_tree example_base)
       (fun _ => None) =
  main example_base
       (Some (Dir (Some (example_listing
                           (ascii_bytes "# OpenHands Microagents Documentation")))))
       (open_rb
          (Some (Dir (Some (example_listing
                              (ascii_bytes "# OpenHands Microagents Documentation")))))
          example_base)
       (fun _ => None).
Proof.
  exact (rerun_stable (firstn 3 (example_listing [])) (skipn 4 (example_listing []))
           (Ok (ascii_bytes "# old"))
           (Ok (ascii_bytes "# OpenHands Microagents Documentation"))
           example_base (fun _ => None) eq_refl).
Defined.

(** X8: well-formed UTF-8 at the start of a file is decoded as it is,
    whatever bytes follow: bytes that cannot be decoded never damage
    the text before them. *)
Theorem valid_prefix_kept (text : str) :
  forall (data rest : bytes),
  utf8_encode text = Some data ->
  utf8_decode (data ++ rest) = text ++ utf8_decode rest.
Proof.
  induction text as [|c text IH]; intros data rest; cbn [utf8_encode].
  - intros E. apply Some_inj in E. now subst data.
  - destruct (utf8_encode_char c) as [enc|] eqn:Ec; [|discriminate].
    destruct (utf8_encode text) as [tail|]; [|discriminate].
    intros E. apply Some_inj in E. subst data.
    rewrite <- app_assoc, (utf8_decode_encoded c enc (tail ++ rest) Ec).
    cbn [app]. f_equal. now apply IH.
Qed.

Lemma valid_prefix_kept_witness :
  utf8_decode ([x63; xc3; xa9] ++ [xff; xe2; x82]) =
  [99; 233] ++ [REPLACEMENT; REPLACEMENT].
Proof.
  rewrite (valid_prefix_kept [99; 233] [x63; xc3; xa9] [xff; xe2; x82]).
  - reflexivity.
  - reflexivity.
Defined.

(** X9: the text read from a file holds no carriage return, translating
    its line ends again changes nothing, and it has at most as many
    characters as the file has bytes. *)
Theorem read_text_shape (data : bytes) :
  ~ In 13 (read_text data)
  /\ universal_newlines (read_text data) = read_text data
  /\ (List.length (read_text data) <= List.length data)%nat.
Proof.
  unfold read_text.
  destruct (universal_newlines_shape_bounded
              (List.length (utf8_decode data)) (utf8_decode data) (le_n _))
    as [Hcr Hlen].
  split; [exact Hcr|]. split; [now apply universal_newlines_id|].
  pose proof (Replaced_length data _ (utf8_decode_Replaced data)). lia.
Qed.

(** X10: the headings of a run are fixed when the tree is walked.  In
    a tree where no directory lists a name twice, when the first loop
    gets to its end, whatever happens to the files afterwards, the
    headings written are those of the files that were eligible at the
    walk and whose heading can be encoded, in strictly ascending
    order of their paths; what is read later only decides the body of
    each (and whether it has one). *)
Theorem headings_fixed_at_walk (fs : option node)
    (reader : Path -> io_result bytes) (base_dir : Path) (w : world) :
  well_formed fs = true ->
  walk_completes fs base_dir ->
  exists rels,
    StronglySorted path_lt rels
    /\ (forall rel,
          In rel rels <->
          encodable (heading rel) = true
          /\ exists data, eligible fs rel = Some data)
    /\ output_file (fst (process_directory fs reader base_dir w)) =
       output_file w
       ++ flat_map
            (fun rel =>
               heading rel
               :: match reader (base_dir ++ rel) with
                  | Ok data => [read_text data]
                  | Raise _ => []
                  end)
            rels.
Proof.
  intros Hwf Hw.
  exists (filter (fun rel => encodable (heading rel)) (sort (kept fs))).
  split.
  { assert (Hs : StronglySorted path_lt (sort (kept fs))).
    { apply sort_sorted, kept_NoDup, Hwf. }
    induction Hs as [|a l Hs IH Ha]; cbn [filter]; [constructor|].
    destruct (encodable (heading a)); [|exact IH].
    constructor; [exact IH|]. rewrite Forall_forall in Ha |- *.
    intros x Hx. apply filter_In in Hx as [Hx _]. auto. }
  split.
  { intros rel. rewrite filter_In, sort_In, kept_eligible. tauto. }
  rewrite (process_directory_eq _ _ _ _ Hw). cbn [fst output_file]. f_equal.
  unfold writes. induction (sort (kept fs)) as [|rel rels IH]; [reflexivity|].
  cbn [flat_map filter]. destruct (encodable (heading rel)); [|exact IH].
  cbn [flat_map]. now rewrite IH.
Qed.

Lemma headings_fixed_at_walk_witness :
  exists rels,
    StronglySorted path_lt rels
    /\ (forall rel,
          In rel rels <->
          encodable (heading rel) = true
          /\ exists data, eligible example_tree rel = Some data)
    /\ output_file
         (fst (process_directory example_tree
                 (fun _ => Ok [x00; xff; x0d]) example_base empty_world)) =
       output_file empty_world
       ++ flat_map
            (fun rel =>
               heading rel
               :: match (fun _ : Path => @Ok bytes [x00; xff; x0d])
                          (example_base ++ rel) with
                  | Ok data => [read_text data]
                  | Raise _ => []
                  end)
            rels.
Proof.
  apply (headings_fixed_at_walk example_tree (fun _ => Ok [x00; xff; x0d])
           example_base empty_world).
  - reflexivity.
  - reflexivity.
Defined.

(** X11: the sections of one directory are consecutive.  In a tree
    where no directory lists a name twice, whatever stands in the
    sorted list between two files below a directory is itself below
    that directory. *)
Theorem directory_sections_consecutive (fs : option node) (base_dir d : Path)
    (x y : Path) (l1 l2 l3 : list Path) :
  well_formed fs = true ->
  sort (all_files fs base_dir) =
    l1 ++ (base_dir ++ d ++ x) :: l2 ++ (base_dir ++ d ++ y) :: l3 ->
  forall q, In q l2 -> exists z, q = base_dir ++ d ++ z.
Proof.
  intros _ Hsort q Hq.
  pose proof (sort_sorted_le (all_files fs base_dir)) as Hs.
  rewrite Hsort in Hs.
  apply sorted_after in Hs as [Hafter Hs].
  apply sorted_before in Hs.
  rewrite Forall_forall in Hafter, Hs.
  assert (H1 : path_le (base_dir ++ d ++ x) q).
  { apply Hafter. apply in_or_app. now left. }
  assert (H2 : path_le q (base_dir ++ d ++ y)) by now apply Hs.
  apply path_le_compare in H1, H2. rewrite !app_assoc in H1, H2.
  destruct (path_compare_convex _ _ _ _ H1 H2) as [z ->].
  exists z. now rewrite app_assoc.
Qed.

Lemma directory_sections_consecutive_witness :
  exists z,
    example_base ++ [lit "docs"; lit "b.md"] =
    example_base ++ [lit "docs"] ++ z.
Proof.
  apply (directory_sections_consecutive nested_tree example_base [lit "docs"]
           [lit "a.md"] [lit "more"; lit "c.md"]
           [example_base ++ [lit "alpha.txt"]]
           [example_base ++ [lit "docs"; lit "b.md"]]
           [example_base ++ [lit "zebra.txt"]]).
  - reflexivity.
  - reflexivity.
  - now left.
Defined.

(** X12: when [is_dir] raises in the first loop and the output file
    was opened, the run ends with that exception: the document holds
    the banner and nothing else, nothing is printed to the error
    stream, and the line [Done!] is not printed. *)
Theorem aborted_run (fs : option node) (reader : Path -> io_result bytes)
    (script_dir : Path) (open_w : Path -> option str) (e : str) :
  open_w (path_join script_dir (lit "microagents.md.llm")) = None ->
  snd (first_loop fs script_dir []) = Raise e ->
  main script_dir fs reader open_w =
  ({| output_file := banner;
      stdout := [lit "Starting to process files in " ++ path_str script_dir;
                 lit "Output will be written to "
                 ++ path_str (path_join script_dir (lit "microagents.md.llm"))];
      stderr := [] |},
   Some e).
Proof.
  intros Hopen He.
  now rewrite (main_eq _ _ _ _ Hopen), (process_directory_aborted _ _ _ _ e He).
Qed.

Lemma aborted_run_witness :
  snd (main example_base denied_tree (open_rb denied_tree example_base)
         (fun _ => None)) = Some denied_message
  /\ document
       (fst (main example_base denied_tree (open_rb denied_tree example_base)
               (fun _ => None))) = List.concat banner.
Proof.
  rewrite (aborted_run denied_tree (open_rb denied_tree example_base)
             example_base (fun _ => None) denied_message).
  - split; reflexivity.
  - reflexivity.
  - reflexivity.
Defined.

(** X13: the first loop gets to its end exactly when [stat] raises on
    none of the paths it asks [is_dir] about: those of the entries
    that the walk lists among the files and whose name passes the two
    name rules. *)
Theorem walk_completes_iff (n : node) (base_dir : Path) :
  walk_completes (Some n) base_dir <->
  (forall d file msg,
     In (d, file) (rel_entries n) -> name_allowed file = true ->
     lookup n (d ++ [file]) <> Some (Denied msg)).
Proof.
  unfold walk_completes.
  pose proof (first_loop_raises n base_dir []) as Hiff.
  destruct (first_loop (Some n) base_dir []) as [l [[]|e]]; cbn [snd].
  - split; [|reflexivity]. intros _ d file msg Hin Hn Hl.
    destruct (proj2 Hiff) as [s' [e' E]]; [|discriminate].
    exists d, file, msg. auto.
  - split; [discriminate|]. intros H. exfalso.
    destruct (proj1 Hiff) as [d [file [msg [Hin [Hn Hl]]]]]; [eauto|].
    exact (H d file msg Hin Hn Hl).
Qed.
